(** * PyTunes: the per-item pipeline of [cli.py] (class [YouTubeMP3Archiver])

    A shallow embedding of the archiver's string helpers, metadata resolver,
    tag writer and playlist loop, and the properties of them that the
    specification states. *)

From Stdlib Require Import NArith Ascii String List Lia DecimalString.
From stdpp Require Import gmap strings list.

Local Open Scope string_scope.
Local Open Scope list_scope.
Local Open Scope N_scope.

(** ** Python strings

    A Python 3 [str] is a sequence of Unicode code points; a code point is
    modelled as an [N] and a string as a list of them.  [py] injects an ASCII
    literal of this file. *)

Abbreviation char := N.
Abbreviation str := (list N).

Definition py (s : string) : str := map N_of_ascii (list_ascii_of_string s).

(** [Py_UNICODE_ISSPACE]: the test behind [str.isspace], [str.strip()] and the
    regular expression class [\s] on [str] patterns. *)
Definition is_space (c : char) : bool :=
  ((0x09 <=? c) && (c <=? 0x0D)) || ((0x1C <=? c) && (c <=? 0x20))
  || (c =? 0x85) || (c =? 0xA0) || (c =? 0x1680)
  || ((0x2000 <=? c) && (c <=? 0x200A))
  || (c =? 0x2028) || (c =? 0x2029) || (c =? 0x202F) || (c =? 0x205F)
  || (c =? 0x3000).

(** The class [.] without [re.DOTALL]: anything but a line feed. *)
Definition dot (c : char) : bool := negb (c =? 0x0A).

Definition one_of (cs : str) (c : char) : bool := existsb (N.eqb c) cs.

(** A string is falsy exactly when it is empty. *)
Definition truthy (s : str) : bool :=
  match s with [] => false | _ :: _ => true end.

Fixpoint lstrip_by (p : char -> bool) (s : str) : str :=
  match s with
  | c :: s' => if p c then lstrip_by p s' else s
  | [] => []
  end.

Definition rstrip_by (p : char -> bool) (s : str) : str :=
  rev (lstrip_by p (rev s)).

Definition strip_by (p : char -> bool) (s : str) : str :=
  rstrip_by p (lstrip_by p s).

(** [s.strip()] *)
Definition strip (s : str) : str := strip_by is_space s.

(** [s.strip(chars)] *)
Definition strip_chars (chars s : str) : str := strip_by (one_of chars) s.

Fixpoint starts_with (old s : str) : bool :=
  match old, s with
  | [], _ => true
  | a :: old', b :: s' => (a =? b) && starts_with old' s'
  | _ :: _, [] => false
  end.

(** [s.replace(old, new)] for a non-empty [old]: occurrences are replaced from
    the left and do not overlap; [skip] counts the characters of the last
    occurrence still to be passed over. *)
Fixpoint replace_from (old new : str) (skip : nat) (s : str) : str :=
  match s with
  | [] => []
  | c :: s' =>
      match skip with
      | S k => replace_from old new k s'
      | O =>
          if starts_with old s
          then new ++ replace_from old new (Nat.pred (length old)) s'
          else c :: replace_from old new 0 s'
      end
  end.

Definition replace (old new s : str) : str := replace_from old new 0 s.

(** ** The fragment of [re] the program uses

    Every pattern of [cli.py] is a sequence of character classes, quantified
    character classes (greedy or lazy), the anchors [^] and [$], and
    capturing groups around such sequences.  [run] is the backtracking
    matcher with Python's priorities: a greedy quantifier tries the longest
    repetition first, a lazy one the shortest, and the first way to match the
    rest of the pattern wins. *)
Module Re.

Inductive node : Type :=
| Cls (p : char -> bool)                          (* [...]  \s  .  a *)
| Rep (greedy : bool) (min : nat) (p : char -> bool) (* p*  p+  p*?  p+? *)
| Bol                                             (* ^ *)
| Eol                                             (* $ *)
| Open (g : nat)                                  (* ( *)
| Close (g : nat).                                (* ) *)

(** Group boundaries as offsets into the subject. *)
Record caps : Type := mkCaps {
  opened : list (nat * nat);
  closed : list (nat * (nat * nat))
}.

Definition no_caps : caps := mkCaps [] [].

Definition assoc {A} (g : nat) (l : list (nat * A)) : option A :=
  snd <$> find (fun x => Nat.eqb (fst x) g) l.

Definition open_group (g pos : nat) (cs : caps) : caps :=
  mkCaps ((g, pos) :: opened cs) (closed cs).

Definition close_group (g pos : nat) (cs : caps) : caps :=
  match assoc g (opened cs) with
  | Some b => mkCaps (opened cs) ((g, (b, pos)) :: closed cs)
  | None => cs
  end.

(** [$] without [re.MULTILINE]: the end of the subject, or just before a
    line feed that is its last character. *)
Definition at_eol (rest : str) : bool :=
  match rest with
  | [] => true
  | [c] => c =? 0x0A
  | _ => false
  end.

Section Quantifier.
Context {R : Type} (p : char -> bool) (k : nat -> str -> option R).

(** [min] counts the repetitions still owed. *)
Fixpoint rep_greedy (min pos : nat) (rest : str) : option R :=
  let stop := match min with O => k pos rest | S _ => None end in
  match rest with
  | c :: rest' =>
      if p c then
        match rep_greedy (Nat.pred min) (S pos) rest' with
        | Some r => Some r
        | None => stop
        end
      else stop
  | [] => stop
  end.

Fixpoint rep_lazy (min pos : nat) (rest : str) : option R :=
  let more :=
    match rest with
    | c :: rest' =>
        if p c then rep_lazy (Nat.pred min) (S pos) rest' else None
    | [] => None
    end in
  match min with
  | O => match k pos rest with Some r => Some r | None => more end
  | S _ => more
  end.
End Quantifier.

(** The match of [r] that starts at offset [pos], where [rest] is the
    subject from [pos] on: the end offset and the groups. *)
Fixpoint run (r : list node) (pos : nat) (rest : str) (cs : caps)
  : option (nat * caps) :=
  match r with
  | [] => Some (pos, cs)
  | Cls p :: r' =>
      match rest with
      | c :: rest' => if p c then run r' (S pos) rest' cs else None
      | [] => None
      end
  | Rep greedy min p :: r' =>
      (if greedy then rep_greedy else rep_lazy)
        p (fun pos' rest' => run r' pos' rest' cs) min pos rest
  | Bol :: r' => if Nat.eqb pos 0 then run r' pos rest cs else None
  | Eol :: r' => if at_eol rest then run r' pos rest cs else None
  | Open g :: r' => run r' pos rest (open_group g pos cs)
  | Close g :: r' => run r' pos rest (close_group g pos cs)
  end.

(** A match object: the subject and the group boundaries. *)
Record match_object : Type := mkMatch { subject : str; bounds : caps }.

(** [re.match(r, s)] *)
Definition match_ (r : list node) (s : str) : option match_object :=
  match run r 0 s no_caps with
  | Some (_, cs) => Some (mkMatch s cs)
  | None => None
  end.

(** [m.group(g)] for a group that took part in the match. *)
Definition group (m : match_object) (g : nat) : str :=
  match assoc g (closed (bounds m)) with
  | Some (b, e) => take (e - b) (drop b (subject m))
  | None => []
  end.

(** [re.sub(r, repl, s)] for a literal [repl]: the subject is scanned from
    the left, a match is replaced and the scan resumes after it; [skip]
    counts the characters of the last match still to be passed over.  An
    empty match is replaced and the scan moves one character on (no pattern
    of the program matches the empty string). *)
Fixpoint sub_from (r : list node) (repl : str) (pos skip : nat) (rest : str)
  : str :=
  match rest with
  | [] =>
      match skip, run r pos [] no_caps with
      | O, Some _ => repl
      | _, _ => []
      end
  | c :: rest' =>
      match skip with
      | S k => sub_from r repl (S pos) k rest'
      | O =>
          match run r pos rest no_caps with
          | Some (e, _) =>
              if Nat.eqb e pos
              then repl ++ c :: sub_from r repl (S pos) 0 rest'
              else repl ++ sub_from r repl (S pos) (e - pos - 1)%nat rest'
          | None => c :: sub_from r repl (S pos) 0 rest'
          end
      end
  end.

Definition sub (r : list node) (repl s : str) : str := sub_from r repl 0 0 s.

End Re.

(** ** [clean_filename] (cli.py 108-118) *)

(** The class of line 111: less-than, greater-than, colon, double quote,
    slash, backslash, vertical bar, question mark, asterisk. *)
Definition forbidden (c : char) : bool :=
  one_of [0x3C; 0x3E; 0x3A; 0x22; 0x2F; 0x5C; 0x7C; 0x3F; 0x2A] c.

Definition clean_filename (filename : str) : str :=
  (* Remove invalid characters *)
  let filename := Re.sub [Re.Cls forbidden] [] filename in
  (* Remove extra spaces and dots *)
  let filename := strip (Re.sub [Re.Rep true 1 is_space] (py " ") filename) in
  let filename := strip_chars (py ".") filename in
  (* Limit length *)
  if (200 <? length filename)%nat then take 200 filename else filename.

(** ** [extract_artist_title] (cli.py 229-251) *)

(** The class [[-–—]]: hyphen-minus, en dash, em dash. *)
Definition is_dash (c : char) : bool := one_of [0x2D; 0x2013; 0x2014] c.

(** [^(.+?)\s*SEP\s*(.+)$] *)
Definition separator_pattern (sep : char -> bool) : list Re.node :=
  [Re.Bol; Re.Open 1; Re.Rep false 1 dot; Re.Close 1;
   Re.Rep true 0 is_space; Re.Cls sep; Re.Rep true 0 is_space;
   Re.Open 2; Re.Rep true 1 dot; Re.Close 2; Re.Eol].

Definition patterns : list (list Re.node) :=
  [separator_pattern is_dash;
   separator_pattern (N.eqb 0x3A);
   separator_pattern (N.eqb 0x7C)].

(** [\s*OPEN.*?CLOSE\s*$], for round and for square brackets. *)
Definition suffix_pattern (o c : char) : list Re.node :=
  [Re.Rep true 0 is_space; Re.Cls (N.eqb o); Re.Rep false 0 dot;
   Re.Cls (N.eqb c); Re.Rep true 0 is_space; Re.Eol].

(** The [for pattern in patterns] loop, with the fall-through return. *)
Fixpoint extract_with (ps : list (list Re.node)) (video_title : str)
  : str * str :=
  match ps with
  | pattern :: ps' =>
      match Re.match_ pattern (strip video_title) with
      | Some m =>
          let artist := strip (Re.group m 1) in
          let title := strip (Re.group m 2) in
          (* Remove common suffixes *)
          let title := Re.sub (suffix_pattern 0x28 0x29) [] title in
          let title := Re.sub (suffix_pattern 0x5B 0x5D) [] title in
          (artist, title)
      | None => extract_with ps' video_title
      end
  | [] =>
      (* If no pattern matches, return empty artist and full title *)
      ([], strip video_title)
  end.

Definition extract_artist_title (video_title : str) : str * str :=
  extract_with patterns video_title.

(** ** Dictionaries

    The dictionaries the program reads (playlist entries, catalog candidates,
    resolved metadata) are keyed by strings; the values read from them are
    strings. *)

Abbreviation dict := (gmap string (list N)).

(** [d.get(k, default)] *)
Definition get_or (d : dict) (k : string) (default_ : str) : str :=
  default default_ (d !! k).

(** The truth value of [d.get(k)]: false for a missing key and for an empty
    value. *)
Definition get_truthy (d : dict) (k : string) : bool :=
  match d !! k with Some v => truthy v | None => false end.

(** The truth value of a dictionary: false exactly for the empty one. *)
Definition dict_truthy (d : dict) : bool := negb (bool_decide (d = ∅)).

(** The truth value of an [Optional[Dict]]. *)
Definition opt_truthy (d : option dict) : bool :=
  match d with Some d => dict_truthy d | None => false end.

(** ** Paths *)

(** A [pathlib.Path] as its components.  The names joined below come out of
    [clean_filename], which removes both separators. *)
Abbreviation path := (list (list N)).

(** [p / name] *)
Definition path_join (p : path) (name : str) : path := p ++ [name].

(** [p.name] *)
Definition path_name (p : path) : str := default [] (last p).

(** [str(n)] for a natural number. *)
Definition decimal (n : nat) : str :=
  py (NilEmpty.string_of_uint (Nat.to_uint n)).

(** ** Exceptions and effects *)

Inductive exn_class : Type := ID3NoHeaderError | OtherException.

(** An instance of [Exception]: its class, as far as a handler of the program
    tells classes apart, and [str(e)].  What is no [Exception]
    ([KeyboardInterrupt] and the like), and so passes every handler of the
    program, is left out. *)
Record exn : Type := mkExn { class_of : exn_class; message : str }.

Inductive outcome (A : Type) : Type :=
| Ret (a : A)
| Raise (e : exn).
Arguments Ret {A} a.
Arguments Raise {A} e.

(** A computation over the outside world [W]: it returns or raises, and
    leaves a world. *)
Definition M (W A : Type) : Type := W -> outcome A * W.

Global Instance M_ret {W} : MRet (M W) := fun A a w => (Ret a, w).

Global Instance M_bind {W} : MBind (M W) := fun A B k m w =>
  match m w with
  | (Ret a, w') => k a w'
  | (Raise e, w') => (Raise e, w')
  end.

Definition raise {W A} (e : exn) : M W A := fun w => (Raise e, w).

(** [try: m  except Exception as e: h e] *)
Definition try_except {W A} (m : M W A) (h : exn -> M W A) : M W A := fun w =>
  match m w with
  | (Ret a, w') => (Ret a, w')
  | (Raise e, w') => h e w'
  end.

(** [try: m  except ID3NoHeaderError: h] *)
Definition try_except_no_header {W A} (m : M W A) (h : M W A) : M W A :=
  fun w =>
  match m w with
  | (Raise (mkExn ID3NoHeaderError _), w') => h w'
  | r => r
  end.

(** ** The collaborators *)

Inductive level : Type := INFO | WARNING | ERROR.

(** An ID3 frame as the program builds it (every text frame with
    [encoding=3]). *)
Inductive frame : Type :=
| TIT2 (text : str)
| TPE1 (text : str)
| TALB (text : str)
| TCON (text : str)
| TDRC (text : str)
| APIC (mime : str) (type : nat) (desc : str) (data : list Byte.byte)
| USLT (lang desc text : str).

(** The decoded body of a catalog response: [data.get('results')], a list of
    candidates when the key is there. *)
Record catalog_data : Type := mkData { results : option (list dict) }.

(** The [requests] response to a plain GET. *)
Record response : Type := mkResponse {
  status_code : nat;
  content : list Byte.byte
}.

(** What lies outside the archiver: the logger, the media fetcher, the
    catalog and cover art endpoints, the lyrics client, the tag library and
    the file system.  Each capability acts on the world and, where the Python
    call can raise, may raise. *)
Record Env (W : Type) : Type := mkEnv {
  (** [\w] of [re] on [str] patterns: the Unicode database's alphanumerics
      and the underscore. *)
  is_word : char -> bool;
  (** [self.logger.info], [.warning], [.error] *)
  logger : level -> str -> W -> W;
  (** [self.genius]: whether a lyrics client was set up. *)
  genius : bool;
  (** [download_audio] (cli.py 138-165), the media fetcher: it drives
      [yt_dlp] and then scans the directory for the file.  Its result is a
      file, [None] (an error it caught and logged, or no file found), or an
      exception that leaves it (its handler reads [title], which line 141
      can fail to bind).  The loop depends on nothing else of it. *)
  download_audio : dict -> path -> M W (option path);
  (** [audio_file.exists()] *)
  path_exists : path -> M W bool;
  (** [requests.get(self.itunes_api, params={'term': term, 'media': 'music',
      'entity': 'song', 'limit': 5}, timeout=10)] and [response.json()]. *)
  itunes_get : str -> M W catalog_data;
  (** [requests.get(url, timeout=15)] *)
  requests_get : str -> M W response;
  (** [self.genius.search_song(title, artist)]: the lyrics of the song
      found, if one is. *)
  search_song : str -> str -> M W (option (list N));
  (** [MP3(str(mp3_path), ID3=ID3)] when the flag is set, [MP3(str(mp3_path))]
      otherwise. *)
  mp3_open : path -> bool -> M W unit;
  (** [audio_file.add_tags()] *)
  mp3_add_tags : path -> M W unit;
  (** [audio_file.tags.add(frame)] *)
  tags_add : path -> frame -> M W unit;
  (** [audio_file.save()], with the frames added so far. *)
  mp3_save : path -> list frame -> M W unit;
  (** [shutil.move(str(audio_file), str(final_path))] *)
  shutil_move : path -> path -> M W unit;
  (** [time.sleep(seconds)] *)
  time_sleep : nat -> W -> W
}.

Arguments is_word {W} _ _.
Arguments logger {W} _ _ _ _.
Arguments genius {W} _.
Arguments download_audio {W} _ _ _ _.
Arguments path_exists {W} _ _ _.
Arguments itunes_get {W} _ _ _.
Arguments requests_get {W} _ _ _.
Arguments search_song {W} _ _ _ _.
Arguments mp3_open {W} _ _ _ _.
Arguments mp3_add_tags {W} _ _ _.
Arguments tags_add {W} _ _ _ _.
Arguments mp3_save {W} _ _ _ _.
Arguments shutil_move {W} _ _ _ _.
Arguments time_sleep {W} _ _ _.

(** ** Merging and naming (pure parts of cli.py 264-280 and 360-373) *)

(** The locals [title], [artist], [album], [genre], [year], [artwork_url] of
    [add_metadata_to_mp3] after the merge. *)
Record merged : Type := mkMerged {
  m_title : str;
  m_artist : str;
  m_album : str;
  m_genre : str;
  m_year : str;
  m_artwork_url : str
}.

(** cli.py 268-280: [if metadata: ... else: ...] *)
Definition merge_tags (artist title : str) (metadata : option dict) : merged :=
  match metadata with
  | Some md =>
      if dict_truthy md then
        mkMerged (get_or md "title" title) (get_or md "artist" artist)
                 (get_or md "album" []) (get_or md "genre" [])
                 (get_or md "year" []) (get_or md "artwork_url" [])
      else mkMerged title artist [] [] [] []
  | None => mkMerged title artist [] [] [] []
  end.

(** cli.py 361-366: [(final_artist, final_title)] *)
Definition merge_name (artist title : str) (metadata : option dict)
  : str * str :=
  match metadata with
  | Some md =>
      if dict_truthy md
      then (get_or md "artist" artist, get_or md "title" title)
      else (artist, title)
  | None => (artist, title)
  end.

(** cli.py 368-373: the formatted name, sanitized. *)
Definition final_name (final_artist final_title : str) : str :=
  clean_filename
    (if truthy final_artist
     then final_artist ++ py " - " ++ final_title ++ py ".mp3"
     else final_title ++ py ".mp3").

(** cli.py 193-194 and 188-195: the record built from the first candidate. *)
Definition candidate_metadata (title artist : str) (result : dict) : dict :=
  {[ "title" := get_or result "trackName" title;
     "artist" := get_or result "artistName" artist;
     "album" := get_or result "collectionName" [];
     "genre" := get_or result "primaryGenreName" [];
     "year" := (if get_truthy result "releaseDate"
                then take 4 (get_or result "releaseDate" [])
                else []);
     "artwork_url" := replace (py "100x100") (py "600x600")
                        (get_or result "artworkUrl100" []) ]}.

(** The counters [successful_downloads] and [failed_downloads] of
    [process_playlist]. *)
Abbreviation tally := (nat * list (list N))%type.

Section Archiver.
Context {W : Type} (E : Env W).
(** [self.temp_dir] *)
Context (temp_dir : path).

Definition log (l : level) (msg : str) : M W unit :=
  fun w => (Ret tt, logger E l msg w).

Definition sleep (seconds : nat) : M W unit :=
  fun w => (Ret tt, time_sleep E seconds w).

(** *** [search_itunes_metadata] (cli.py 167-199) *)

(** cli.py 171-173 *)
Definition search_term (title artist : str) : str :=
  let search_term := strip (artist ++ py " " ++ title) in
  let search_term :=
    Re.sub [Re.Cls (fun c => negb (is_word E c || is_space c))] (py " ")
      search_term in
  strip (Re.sub [Re.Rep true 1 is_space] (py " ") search_term).

Definition search_itunes_metadata (title artist : str) : M W (option dict) :=
  try_except
    (data ← itunes_get E (search_term title artist);
     match results data with
     | Some (result :: _) =>
         (* Return the first result (usually most relevant) *)
         mret (Some (candidate_metadata title artist result))
     | _ => mret None
     end)
    (fun e =>
       log WARNING
         (py "iTunes API search failed for '" ++ title ++ py "': "
            ++ message e);;
       mret None).

(** *** [download_cover_art] (cli.py 201-213) *)
Definition download_cover_art (artwork_url : str)
  : M W (option (list Byte.byte)) :=
  if negb (truthy artwork_url) then mret None
  else
    try_except
      (response ← requests_get E artwork_url;
       if Nat.eqb (status_code response) 200
       then mret (Some (content response))
       else mret None)
      (fun e =>
         log WARNING (py "Failed to download cover art: " ++ message e);;
         mret None).

(** *** [get_lyrics] (cli.py 215-227) *)
Definition get_lyrics (title artist : str) : M W (option (list N)) :=
  if negb (genius E) then mret None
  else
    try_except
      (song ← search_song E title artist;
       match song with
       | Some lyrics => mret (Some lyrics)
       | None => mret None
       end)
      (fun e =>
         log WARNING
           (py "Failed to fetch lyrics for '" ++ title ++ py "' by "
              ++ artist ++ py ": " ++ message e);;
         mret None).

(** *** [add_metadata_to_mp3] (cli.py 253-316) *)

(** [audio_file.tags.add(f)], keeping the frames added so far. *)
Definition add (mp3_path : path) (tags : list frame) (f : frame)
  : M W (list frame) :=
  tags_add E mp3_path f;; mret (tags ++ [f]).

(** The body of the [try] block, lines 256-313; it returns the frames it
    added, in order. *)
Definition write_tags (mp3_path : path) (video_info : dict)
    (metadata : option dict) : M W (list frame) :=
  (* Load or create ID3 tags *)
  try_except_no_header
    (mp3_open E mp3_path true;; mp3_add_tags E mp3_path)
    (mp3_open E mp3_path false;; mp3_add_tags E mp3_path);;
  (* Extract basic info *)
  let video_title := get_or video_info "title" (py "Unknown") in
  let '(artist, title) := extract_artist_title video_title in
  (* Use iTunes metadata if available *)
  let t := merge_tags artist title metadata in
  (* Set basic tags *)
  tags ← add mp3_path [] (TIT2 (m_title t));
  tags ← (if truthy (m_artist t)
          then add mp3_path tags (TPE1 (m_artist t)) else mret tags);
  tags ← (if truthy (m_album t)
          then add mp3_path tags (TALB (m_album t)) else mret tags);
  tags ← (if truthy (m_genre t)
          then add mp3_path tags (TCON (m_genre t)) else mret tags);
  tags ← (if truthy (m_year t)
          then add mp3_path tags (TDRC (m_year t)) else mret tags);
  (* Add cover art *)
  tags ← (if truthy (m_artwork_url t) then
            cover_data ← download_cover_art (m_artwork_url t);
            match cover_data with
            | Some (b :: data) =>
                add mp3_path tags
                  (APIC (py "image/jpeg") 3 (py "Cover") (b :: data))
            | _ => mret tags
            end
          else mret tags);
  (* Add lyrics if available *)
  tags ← (if genius E && truthy (m_artist t) && truthy (m_title t) then
            lyrics ← get_lyrics (m_title t) (m_artist t);
            match lyrics with
            | Some (c :: lyrics) =>
                add mp3_path tags
                  (USLT (py "eng") (py "Lyrics") (c :: lyrics))
            | _ => mret tags
            end
          else mret tags);
  (* Save changes *)
  mp3_save E mp3_path tags;;
  log INFO (py "Added metadata to: " ++ path_name mp3_path);;
  mret tags.

Definition add_metadata_to_mp3 (mp3_path : path) (video_info : dict)
    (metadata : option dict) : M W unit :=
  try_except
    (write_tags mp3_path video_info metadata;; mret tt)
    (fun e =>
       log ERROR
         (py "Failed to add metadata to " ++ path_name mp3_path ++ py ": "
            ++ message e)).

(** *** The loop of [process_playlist] (cli.py 334-388) *)

(** The title under which an entry is reported, line 341. *)
Definition reported_title (i : nat) (video : dict) : str :=
  get_or video "title" (py "Unknown Video " ++ decimal i).

(** One pass of the loop body for an entry that is not skipped, lines
    341-388.  Nothing between the increment of line 378 and the end of the
    [try] block raises, so the handler always finds the counters as they
    were on entry. *)
Definition process_entry (playlist_dir : path) (n i : nat) (video : dict)
    (counts : tally) : M W tally :=
  let '(successful_downloads, failed_downloads) := counts in
  let video_title := reported_title i video in
  log INFO
    (py "[" ++ decimal i ++ py "/" ++ decimal n ++ py "] Processing: "
       ++ video_title);;
  try_except
    ((* Download audio *)
     audio_file ← download_audio E video temp_dir;
     match audio_file with
     | None => mret (successful_downloads, failed_downloads ++ [video_title])
     | Some audio_file =>
         found ← path_exists E audio_file;
         if negb found
         then mret (successful_downloads, failed_downloads ++ [video_title])
         else
           (* Search for metadata *)
           let '(artist, title) := extract_artist_title video_title in
           metadata ← search_itunes_metadata title artist;
           (* Add metadata *)
           add_metadata_to_mp3 audio_file video metadata;;
           (* Create final filename *)
           let '(final_artist, final_title) :=
             merge_name artist title metadata in
           let final_name := final_name final_artist final_title in
           let final_path := path_join playlist_dir final_name in
           (* Move file to final location *)
           shutil_move E audio_file final_path;;
           log INFO ([0x2705] ++ py " Completed: " ++ final_name);;
           (* Small delay to be respectful to APIs *)
           sleep 1;;
           mret (S successful_downloads, failed_downloads)
     end)
    (fun e =>
       log ERROR
         ([0x274C] ++ py " Failed to process " ++ video_title ++ py ": "
            ++ message e);;
       mret (successful_downloads, failed_downloads ++ [video_title])).

(** [for i, video in enumerate(videos, 1)]: [i] is the index of the head of
    [videos], [n] is [len(videos)] of the whole playlist. *)
Fixpoint process_entries (playlist_dir : path) (n i : nat)
    (videos : list (option dict)) (counts : tally) : M W tally :=
  match videos with
  | [] => mret counts
  | video :: videos' =>
      if negb (opt_truthy video)
      then (* Skip unavailable videos *)
        process_entries playlist_dir n (S i) videos' counts
      else
        counts' ← process_entry playlist_dir n i (default ∅ video) counts;
        process_entries playlist_dir n (S i) videos' counts'
  end.

(** Lines 334-388 of [process_playlist]: the counters start at zero and the
    loop runs over the playlist's entries. *)
Definition process_playlist_loop (playlist_dir : path)
    (videos : list (option dict)) : M W tally :=
  process_entries playlist_dir (length videos) 1 videos (0%nat, []).

(** *** Observations on a run *)

(** The world in which the media fetcher is called for an entry: the one
    left by the log line of 342. *)
Definition fetch_world (n i : nat) (video : dict) (w : W) : W :=
  logger E INFO
    (py "[" ++ decimal i ++ py "/" ++ decimal n ++ py "] Processing: "
       ++ reported_title i video) w.

End Archiver.

(** An entry's pass adds exactly one outcome to the counters: one success,
    or one failure under the entry's title. *)
Definition one_outcome (i : nat) (video : dict) (before after : tally)
  : Prop :=
  after = (S (fst before), snd before)
  \/ after = (fst before, snd before ++ [reported_title i video]).

(** [not video]: the entry is [None] or an empty record. *)
Definition unavailable (video : option dict) : bool :=
  negb (opt_truthy video).

(** ** Sample worlds

    Concrete collaborators on which the statements below are evaluated: the
    world is the log written so far. *)
Module Sample.

Definition world : Type := list (level * list N).

Definition fails {A} (msg : string) : M world A :=
  raise (mkExn OtherException (py msg)).

(** ASCII letters, digits and the underscore. *)
Definition ascii_word (c : char) : bool :=
  ((0x30 <=? c) && (c <=? 0x39)) || ((0x41 <=? c) && (c <=? 0x5A))
  || ((0x61 <=? c) && (c <=? 0x7A)) || (c =? 0x5F).

(** The media fetcher delivers [<temp>/<title>.mp3], the file system and the
    tag library work unless [add_tags] says otherwise, the catalog answers
    with [catalog], and neither cover art nor lyrics can be had. *)
Definition env (catalog : str -> M world catalog_data)
    (add_tags : path -> M world unit) : Env world :=
  {| is_word := ascii_word;
     logger := fun l msg w => w ++ [(l, msg)];
     genius := false;
     download_audio := fun video dir =>
       mret (Some (path_join dir (get_or video "title" (py "Unknown")
                                    ++ py ".mp3")));
     path_exists := fun _ => mret true;
     itunes_get := catalog;
     requests_get := fun _ => fails "connection refused";
     search_song := fun _ _ => mret None;
     mp3_open := fun _ _ => mret tt;
     mp3_add_tags := add_tags;
     tags_add := fun _ _ => mret tt;
     mp3_save := fun _ _ => mret tt;
     shutil_move := fun _ _ => mret tt;
     time_sleep := fun _ w => w |}.

(** No network, working tag library. *)
Definition offline : Env world :=
  env (fun _ => fails "timed out") (fun _ => mret tt).

(** No network, and every file already carries an ID3 tag, so that
    [add_tags] raises. *)
Definition tagged : Env world :=
  env (fun _ => fails "timed out")
      (fun _ => fails "an ID3 tag already exists").

(** The catalog answers every query with the one candidate [result]. *)
Definition online (result : dict) : Env world :=
  env (fun _ => mret (mkData (Some [result]))) (fun _ => mret tt).

Definition temp : path := [py "Downloaded_Playlists"; py "temp"].
Definition out : path := [py "Downloaded_Playlists"; py "Mix"].

Definition song : dict :=
  {[ "title" := py "Daft Punk - One More Time (Official Video)" ]}.

(** A candidate as the catalog returns it. *)
Definition candidate : dict :=
  {[ "trackName" := py "One More Time";
     "artistName" := py "Daft Punk";
     "collectionName" := py "Discovery";
     "primaryGenreName" := py "Dance";
     "releaseDate" := py "2000-11-13T08:00:00Z";
     "artworkUrl100" := py "https://is1.example/image/100x100bb.jpg" ]}.

End Sample.

(** ** Vocabulary of the statements *)

(** [s.endswith(suffix)] *)
Definition ends_with (suffix s : str) : bool :=
  starts_with (rev suffix) (rev s).

(** The frames a merged record calls for at lines 283-291: the title in any
    case, the other four when their value is not empty. *)
Definition basic_frames (t : merged) : list frame :=
  [TIT2 (m_title t)]
  ++ (if truthy (m_artist t) then [TPE1 (m_artist t)] else [])
  ++ (if truthy (m_album t) then [TALB (m_album t)] else [])
  ++ (if truthy (m_genre t) then [TCON (m_genre t)] else [])
  ++ (if truthy (m_year t) then [TDRC (m_year t)] else []).

(** The frames of lines 293-309: a picture or lyrics. *)
Definition is_attachment (f : frame) : bool :=
  match f with
  | APIC _ _ _ _ | USLT _ _ _ => true
  | _ => false
  end.

(** The merged record [add_metadata_to_mp3] works with (lines 264-280). *)
Definition tag_record (video_info : dict) (metadata : option dict) : merged :=
  let '(artist, title) :=
    extract_artist_title (get_or video_info "title" (py "Unknown")) in
  merge_tags artist title metadata.

(** [(m.group(1), m.group(2))] for the match of [pattern] at the start of
    [s], if there is one. *)
Definition groups_of (pattern : list Re.node) (s : str) : option (str * str) :=
  (fun m => (Re.group m 1, Re.group m 2)) <$> Re.match_ pattern s.

(** The two groups of the first pattern of [patterns] that matches [s], in
    the order dash, colon, pipe. *)
Definition first_match (s : str) : option (str * str) :=
  match groups_of (separator_pattern is_dash) s with
  | Some g => Some g
  | None =>
      match groups_of (separator_pattern (N.eqb 0x3A)) s with
      | Some g => Some g
      | None => groups_of (separator_pattern (N.eqb 0x7C)) s
      end
  end.

(** What [suffix_pattern o c] matches: white space, the opening bracket, a
    stretch without line feed, the closing bracket, white space up to the
    end. *)
Definition suffix_shape (o c : char) (u : str) : Prop :=
  exists ws body ws',
    u = ws ++ o :: body ++ c :: ws'
    /\ forallb is_space ws = true
    /\ forallb dot body = true
    /\ forallb is_space ws' = true.

(** [result] is [t] without its part from the leftmost offset at which the
    rest of [t] has the suffix shape; it is [t] when there is no such
    offset. *)
Definition removes_leftmost (o c : char) (t result : str) : Prop :=
  (exists p,
      (p <= length t)%nat
      /\ suffix_shape o c (drop p t)
      /\ (forall q, (q < p)%nat -> ~ suffix_shape o c (drop q t))
      /\ result = take p t)
  \/ ((forall q, ~ suffix_shape o c (drop q t)) /\ result = t).

(** Boolean forms of the shape: [closes c u] when [u] is a stretch without
    line feed, then [c], then white space; [opens o c u] when [u] is white
    space, then [o], then such a rest. *)
Fixpoint closes (c : char) (u : str) : bool :=
  match u with
  | [] => false
  | y :: u' => ((c =? y) && forallb is_space u') || (dot y && closes c u')
  end.

Fixpoint opens (o c : char) (u : str) : bool :=
  match u with
  | [] => false
  | x :: u' => ((o =? x) && closes c u') || (is_space x && opens o c u')
  end.

Fixpoint cut_suffix (o c : char) (t : str) : str :=
  if opens o c t then []
  else match t with
       | [] => []
       | x :: t' => x :: cut_suffix o c t'
       end.

(** The removal of suffixes in the specification's words: exactly one
    trailing bracketed group goes, the one that starts at the last opening
    bracket, with the white space around it. *)
Fixpoint upto_last (o : char) (reversed : str) : option str :=
  match reversed with
  | [] => None
  | x :: r => if x =? o then Some r else upto_last o r
  end.

Definition one_suffix_removed (o c : char) (t : str) : str :=
  match lstrip_by is_space (rev t) with
  | x :: r =>
      if x =? c then
        match upto_last o r with
        | Some kept => rev (lstrip_by is_space kept)
        | None => t
        end
      else t
  | [] => t
  end.

(** ** The rest of the archiver: media fetcher, playlist extraction and the
    whole of [process_playlist] *)

(** [needle in hay] on strings. *)
Fixpoint contains (needle hay : str) : bool :=
  starts_with needle hay
  || match hay with
     | [] => false
     | _ :: hay' => contains needle hay'
     end.

(** [s.rfind(c)] for a character, [None] for [-1]. *)
Fixpoint rfind (c : char) (s : str) : option nat :=
  match s with
  | [] => None
  | x :: s' =>
      match rfind c s' with
      | Some i => Some (S i)
      | None => if x =? c then Some 0%nat else None
      end
  end.

(** [PurePath.stem] of a file name: the name without its last suffix, where
    a dot that starts or ends the name opens no suffix. *)
Definition stem (name : str) : str :=
  match rfind 0x2E name with
  | Some i =>
      if (Nat.ltb 0 i && Nat.ltb i (length name - 1))%nat
      then take i name
      else name
  | None => name
  end.

(** [p / name] for a name that can be empty: [p / ''] is [p]. *)
Definition path_div (p : path) (name : str) : path :=
  if truthy name then path_join p name else p.

(** What [ydl.extract_info(url, download=False)] yields, as far as the
    program reads it: [.get('title')] and [.get('entries')]. *)
Record playlist_info : Type := mkInfo {
  info_title : option (list N);
  info_entries : option (list (option dict))
}.

(** The collaborators of the code outside the loop body. *)
Record Host (W : Type) : Type := mkHost {
  (** [str.lower], by the Unicode database. *)
  lower : str -> str;
  (** [str(p)] of a path, by the platform's separator. *)
  path_str : path -> str;
  (** The [UnboundLocalError] raised by reading a local that was never
      bound; its text depends on the interpreter. *)
  unbound_local : exn;
  (** [yt_dlp.YoutubeDL({'quiet': True}).extract_info(url, download=False)] *)
  ydl_extract_info : str -> M W playlist_info;
  (** [yt_dlp.YoutubeDL(ydl_opts).download([url])], with the output template
      of line 148. *)
  ydl_download : str -> str -> M W unit;
  (** [list(p.glob(pattern))] *)
  glob : path -> string -> M W (list path);
  (** [os.path.getctime(p)], a time stamp; only the order of time stamps
      matters. *)
  getctime : path -> M W N;
  (** [p.mkdir(exist_ok=True)] *)
  mkdir : path -> M W unit;
  (** [p.unlink()] *)
  unlink : path -> M W unit
}.

Arguments lower {W} _ _.
Arguments path_str {W} _ _.
Arguments unbound_local {W} _.
Arguments ydl_extract_info {W} _ _ _.
Arguments ydl_download {W} _ _ _ _.
Arguments glob {W} _ _ _ _.
Arguments getctime {W} _ _ _.
Arguments mkdir {W} _ _ _.
Arguments unlink {W} _ _ _.

(** [for x in l: body x] *)
Fixpoint for_each {W A} (l : list A) (body : A -> M W unit) : M W unit :=
  match l with
  | [] => mret tt
  | x :: l' => body x;; for_each l' body
  end.

(** The media fetcher as the program defines it; the name [download_audio]
    alone is the capability of [Env] that the loop calls. *)
Module Fetcher.
Section Fetcher.
Context {W : Type} (E : Env W) (H : Host W).

(** The rest of [max(files, key=os.path.getctime)] after [best]: a later
    file takes over only with a strictly greater key. *)
Fixpoint max_by_ctime (best : path) (best_key : N) (files : list path)
  : M W path :=
  match files with
  | [] => mret best
  | file :: files' =>
      key ← getctime H file;
      if best_key <? key
      then max_by_ctime file key files'
      else max_by_ctime best best_key files'
  end.

(** [video_info.get('webpage_url') or f"https://youtube.com/watch?v=
    {video_info['id']}"]: [None] when the subscript raises [KeyError]. *)
Definition video_url (video_info : dict) : option (list N) :=
  if get_truthy video_info "webpage_url"
  then Some (get_or video_info "webpage_url" [])
  else (fun id => py "https://youtube.com/watch?v=" ++ id)
         <$> video_info !! "id".

(** cli.py 138-165.  When line 141 raises, [title] is not bound yet, so the
    handler's own message raises [UnboundLocalError], which leaves the
    function. *)
Definition download_audio (video_info : dict) (output_path : path)
  : M W (option path) :=
  match video_url video_info with
  | None => raise (unbound_local H)
  | Some video_url =>
      let title := get_or video_info "title" (py "Unknown") in
      try_except
        (log E INFO (py "Downloading: " ++ title);;
         (* Configure output template *)
         ydl_download H
           (path_str H (path_join output_path (py "%(title)s.%(ext)s")))
           video_url;;
         (* Find the downloaded file *)
         files ← glob H output_path "*.mp3";
         match
           find (fun file =>
                   contains (lower H title) (lower H (stem (path_name file))))
             files
         with
         | Some file => mret (Some file)
         | None =>
             (* Fallback: return the most recent mp3 file *)
             mp3_files ← glob H output_path "*.mp3";
             match mp3_files with
             | [] => mret None
             | file :: mp3_files' =>
                 key ← getctime H file;
                 newest ← max_by_ctime file key mp3_files';
                 mret (Some newest)
             end
         end)
        (fun e =>
           log E ERROR
             (py "Failed to download " ++ title ++ py ": " ++ message e);;
           mret None)
  end.

End Fetcher.
End Fetcher.

(** The collaborators of the running program: those of [E], with the media
    fetcher that the program defines. *)
Definition program_env {W} (E : Env W) (H : Host W) : Env W :=
  {| is_word := is_word E;
     logger := logger E;
     genius := genius E;
     download_audio := Fetcher.download_audio E H;
     path_exists := path_exists E;
     itunes_get := itunes_get E;
     requests_get := requests_get E;
     search_song := search_song E;
     mp3_open := mp3_open E;
     mp3_add_tags := mp3_add_tags E;
     tags_add := tags_add E;
     mp3_save := mp3_save E;
     shutil_move := shutil_move E;
     time_sleep := time_sleep E |}.

Section Playlist.
Context {W : Type} (E : Env W) (H : Host W).
(** [self.output_dir] *)
Context (output_dir : path).

(** [self.temp_dir], lines 50 and 94. *)
Definition temp_dir_of : path := path_join output_dir (py "temp").

(** *** [extract_playlist_info] (cli.py 120-136) *)
Definition extract_playlist_info (playlist_url : str)
  : M W (list N * list (option dict)) :=
  log E INFO (py "Extracting playlist info from: " ++ playlist_url);;
  try_except
    (playlist_info ← ydl_extract_info H playlist_url;
     let playlist_title :=
       clean_filename
         (default (py "Unknown Playlist") (info_title playlist_info)) in
     let videos := default [] (info_entries playlist_info) in
     log E INFO
       (py "Found playlist: " ++ playlist_title ++ py " with "
          ++ decimal (length videos) ++ py " videos");;
     mret (playlist_title, videos))
    (fun e =>
       log E ERROR (py "Failed to extract playlist info: " ++ message e);;
       raise e).

(** Lines 403-408: the failures named in the summary. *)
Definition report_failures (failed_downloads : list (list N)) : M W unit :=
  if Nat.ltb 0 (length failed_downloads) then
    log E WARNING
      (py "Failed downloads: " ++ decimal (length failed_downloads));;
    (* Show first 5 failures *)
    for_each (take 5 failed_downloads)
      (fun failed => log E WARNING (py "  - " ++ failed));;
    if Nat.ltb 5 (length failed_downloads) then
      log E WARNING
        (py "  ... and " ++ decimal (length failed_downloads - 5)
           ++ py " more")
    else mret tt
  else mret tt.

(** The directory of line 329 for a playlist title and a custom name. *)
Definition playlist_dir_of (playlist_title custom_name : str) : path :=
  path_div output_dir
    (if truthy custom_name then clean_filename custom_name
     else playlist_title).

(** *** [process_playlist] (cli.py 318-414) *)
Definition process_playlist (playlist_url custom_name : str) : M W path :=
  try_except
    ((* Extract playlist info *)
     '(playlist_title, videos) ← extract_playlist_info playlist_url;
     (* Use custom name if provided *)
     let playlist_title :=
       if truthy custom_name then clean_filename custom_name
       else playlist_title in
     (* Create playlist directory *)
     let playlist_dir := path_div output_dir playlist_title in
     mkdir H playlist_dir;;
     log E INFO
       (py "Processing " ++ decimal (length videos) ++ py " videos into: "
          ++ path_str H playlist_dir);;
     '(successful_downloads, failed_downloads) ←
       process_playlist_loop (program_env E H) temp_dir_of playlist_dir videos;
     (* Cleanup temp files *)
     temp_files ← glob H temp_dir_of "*";
     for_each temp_files
       (fun temp_file => try_except (unlink H temp_file) (fun _ => mret tt));;
     (* Summary *)
     log E INFO
       ([0x0A; 0x1F3B5] ++ py " PLAYLIST DOWNLOAD COMPLETE " ++ [0x1F3B5]);;
     log E INFO (py "Playlist: " ++ playlist_title);;
     log E INFO (py "Location: " ++ path_str H playlist_dir);;
     log E INFO
       (py "Successfully downloaded: " ++ decimal successful_downloads
          ++ py "/" ++ decimal (length videos) ++ py " tracks");;
     report_failures failed_downloads;;
     mret playlist_dir)
    (fun e =>
       log E ERROR (py "Failed to process playlist: " ++ message e);;
       raise e).

End Playlist.

(** ** Vocabulary of the further statements *)

(** The length of the longest prefix of [s] in the class [p]. *)
Fixpoint prefix_run (p : char -> bool) (s : str) : nat :=
  match s with
  | c :: s' => if p c then S (prefix_run p s') else 0%nat
  | [] => 0%nat
  end.

(** Every stretch of white space replaced by one space; [in_run] says that
    the stretch at the head was replaced already. *)
Fixpoint collapse_from (in_run : bool) (s : str) : str :=
  match s with
  | [] => []
  | c :: s' =>
      if is_space c
      then if in_run then collapse_from true s'
           else 0x20 :: collapse_from true s'
      else c :: collapse_from false s'
  end.

(** The only white space of [s] is the space character, never twice in a
    row; [after_space] says that a space stands before [s]. *)
Fixpoint squeezed_from (after_space : bool) (s : str) : bool :=
  match s with
  | [] => true
  | c :: s' =>
      if c =? 0x20 then negb after_space && squeezed_from true s'
      else negb (is_space c) && squeezed_from false s'
  end.

Definition squeezed (s : str) : bool := squeezed_from false s.

(** Neither end of [s] is in the class [p]. *)
Definition edges_free (p : char -> bool) (s : str) : bool :=
  match head s, last s with
  | Some a, Some b => negb (p a) && negb (p b)
  | _, _ => true
  end.


(** A picture frame as line 297 builds it from the non-empty body of a
    response with status 200 to a GET of the merged artwork URL. *)
Definition picture_of {W} (E : Env W) (t : merged) (f : frame) : Prop :=
  exists data r w1 w2,
    f = APIC (py "image/jpeg") 3 (py "Cover") data
    /\ data <> [] /\ m_artwork_url t <> []
    /\ requests_get E (m_artwork_url t) w1 = (Ret r, w2)
    /\ status_code r = 200%nat /\ content r = data.

(** A lyrics frame as line 309 builds it from the non-empty text that the
    lyrics client, set up, found for the merged title and artist, both
    non-empty. *)
Definition lyrics_of {W} (E : Env W) (t : merged) (f : frame) : Prop :=
  exists text w1 w2,
    f = USLT (py "eng") (py "Lyrics") text
    /\ text <> [] /\ genius E = true
    /\ m_artist t <> [] /\ m_title t <> []
    /\ search_song E (m_title t) (m_artist t) w1 = (Ret (Some text), w2).

(** The reported titles of the available entries of [videos], numbered from
    [i] as the loop numbers them. *)
Fixpoint titles_from (i : nat) (videos : list (option dict))
  : list (list N) :=
  match videos with
  | [] => []
  | video :: videos' =>
      if opt_truthy video
      then reported_title i (default ∅ video) :: titles_from (S i) videos'
      else titles_from (S i) videos'
  end.

(** The title that a metadata record hands to the merge: the record must
    not be empty, and [.get('title', ...)] reads the key by presence, so an
    empty title counts. *)
Definition resolved_title (metadata : option dict) : option (list N) :=
  match metadata with
  | Some md => if dict_truthy md then md !! "title" else None
  | None => None
  end.

(** The raw titles that parse to an empty title: the blank ones, and those
    on which a pattern matches with a right group that is, once trimmed,
    nothing but bracketed suffixes: it has the suffix shape for round
    brackets, or what the removal of its round suffix leaves has the suffix
    shape for square brackets. *)
Definition parses_to_nothing (raw : str) : Prop :=
  match first_match (strip raw) with
  | None => strip raw = []
  | Some (_, group2) =>
      suffix_shape 0x28 0x29 (strip group2)
      \/ suffix_shape 0x5B 0x5D (cut_suffix 0x28 0x29 (strip group2))
  end.

(** The entries whose merged title is empty: the metadata record carries an
    empty title, or it carries none and the raw title parses to nothing. *)
Definition title_is_lost (raw : str) (metadata : option dict) : Prop :=
  match resolved_title metadata with
  | Some title => title = []
  | None => parses_to_nothing raw
  end.

(** ** Further sample worlds

    Variations of the collaborators of [Sample], and a sample host, on
    which the further statements are evaluated. *)
Module Scenario.

(** [E] with another media fetcher. *)
Definition with_fetcher (E : Env Sample.world)
    (fetch : dict -> path -> M Sample.world (option path))
  : Env Sample.world :=
  {| is_word := is_word E;
     logger := logger E;
     genius := genius E;
     download_audio := fetch;
     path_exists := path_exists E;
     itunes_get := itunes_get E;
     requests_get := requests_get E;
     search_song := search_song E;
     mp3_open := mp3_open E;
     mp3_add_tags := mp3_add_tags E;
     tags_add := tags_add E;
     mp3_save := mp3_save E;
     shutil_move := shutil_move E;
     time_sleep := time_sleep E |}.

(** [E] with another [shutil.move]. *)
Definition with_move (E : Env Sample.world)
    (move : path -> path -> M Sample.world unit) : Env Sample.world :=
  {| is_word := is_word E;
     logger := logger E;
     genius := genius E;
     download_audio := download_audio E;
     path_exists := path_exists E;
     itunes_get := itunes_get E;
     requests_get := requests_get E;
     search_song := search_song E;
     mp3_open := mp3_open E;
     mp3_add_tags := mp3_add_tags E;
     tags_add := tags_add E;
     mp3_save := mp3_save E;
     shutil_move := move;
     time_sleep := time_sleep E |}.

(** The fetcher never delivers a file. *)
Definition no_media : Env Sample.world :=
  with_fetcher Sample.offline (fun _ _ => mret None).

(** Every move fails. *)
Definition full_disk : Env Sample.world :=
  with_move Sample.offline
    (fun _ _ => Sample.fails "No space left on device").

(** The catalog answers with [Sample.candidate], the cover art server with
    a picture of three bytes, and the lyrics client with one line. *)
Definition studio : Env Sample.world :=
  {| is_word := Sample.ascii_word;
     logger := fun l msg w => w ++ [(l, msg)];
     genius := true;
     download_audio := download_audio Sample.offline;
     path_exists := fun _ => mret true;
     itunes_get := fun _ => mret (mkData (Some [Sample.candidate]));
     requests_get := fun _ =>
       mret (mkResponse 200 [Byte.xff; Byte.xd8; Byte.xff]);
     search_song := fun _ _ => mret (Some (py "One more time"));
     mp3_open := fun _ _ => mret tt;
     mp3_add_tags := fun _ => mret tt;
     tags_add := fun _ _ => mret tt;
     mp3_save := fun _ _ => mret tt;
     shutil_move := fun _ _ => mret tt;
     time_sleep := fun _ w => w |}.

(** [str.lower] on ASCII. *)
Definition ascii_lower (s : str) : str :=
  map (fun c => if (0x41 <=? c) && (c <=? 0x5A) then c + 0x20 else c) s.

(** The components joined by slashes. *)
Fixpoint slashed (p : path) : str :=
  match p with
  | [] => []
  | [c] => c
  | c :: p' => c ++ py "/" ++ slashed p'
  end.

(** A host whose directories all list the two files [other.mp3] and
    [Daft Punk - One More Time (Official Video).mp3], where no file can be
    removed, and whose playlists are as [extract] says. *)
Definition host_with (extract : str -> M Sample.world playlist_info)
  : Host Sample.world :=
  {| lower := ascii_lower;
     path_str := slashed;
     unbound_local :=
       mkExn OtherException
         (py "cannot access local variable 'title' where it is not associated with a value");
     ydl_extract_info := extract;
     ydl_download := fun _ _ => mret tt;
     glob := fun p _ =>
       mret [path_join p (py "other.mp3");
             path_join p
               (py "Daft Punk - One More Time (Official Video).mp3")];
     getctime := fun _ => mret 0;
     mkdir := fun _ => mret tt;
     unlink := fun _ => Sample.fails "Permission denied" |}.

(** An entry with an [id], and one with nothing but a title. *)
Definition video : dict :=
  {[ "title" := py "Daft Punk - One More Time (Official Video)";
     "id" := py "FGBhQbmPwH8" ]}.

Definition untraceable : dict := {[ "title" := py "Private video" ]}.

(** The playlist [Mix: Daft Punk] with three entries, the second of them
    unavailable. *)
Definition host : Host Sample.world :=
  host_with (fun _ =>
    mret (mkInfo (Some (py "Mix: Daft Punk"))
                 (Some [Some video; None; Some untraceable]))).

(** No playlist can be extracted. *)
Definition unreachable : Host Sample.world :=
  host_with (fun _ => Sample.fails "HTTP Error 404: Not Found").

Definition root : path := [py "Downloaded_Playlists"].
Definition url : str := py "https://www.youtube.com/playlist?list=PL0".

End Scenario.
(** Unfolds the monad's operations. *)
Ltac unfold_monad :=
  unfold mbind, M_bind, mret, M_ret, try_except, try_except_no_header, raise
    in *.

(** * Properties *)

Section Loop.
Context {W : Type} (E : Env W) (temp_dir : path).

Lemma search_itunes_metadata_returns title artist w :
  exists metadata w',
    search_itunes_metadata E title artist w = (Ret metadata, w').
Proof.
  unfold search_itunes_metadata, log. unfold_monad.
  destruct (itunes_get E _ w) as [[data | e] w1]; [|eauto].
  destruct (results data) as [[|result rest]|]; eauto.
Qed.

Lemma add_metadata_to_mp3_returns mp3_path video_info metadata w :
  exists w',
    add_metadata_to_mp3 E mp3_path video_info metadata w = (Ret tt, w').
Proof.
  unfold add_metadata_to_mp3, log. unfold_monad.
  destruct (write_tags E mp3_path video_info metadata w) as [[tags | e] w1];
    eauto.
Qed.

Lemma process_entry_one_outcome playlist_dir n i video counts w :
  exists counts' w',
    process_entry E temp_dir playlist_dir n i video counts w
    = (Ret counts', w')
    /\ one_outcome i video counts counts'.
Proof.
  destruct counts as [s f].
  unfold process_entry, one_outcome, log, sleep.
  unfold_monad. simpl.
  set (w0 := logger E INFO _ w).
  destruct (download_audio E video temp_dir w0) as [[[audio|] | e] w1];
    [| eauto | eauto].
  destruct (path_exists E audio w1) as [[[|] | e] w2]; simpl; [| eauto | eauto].
  destruct (extract_artist_title _) as [artist title].
  destruct (search_itunes_metadata_returns title artist w2)
    as (metadata & w3 & ->).
  destruct (add_metadata_to_mp3_returns audio video metadata w3)
    as (w4 & ->).
  destruct (merge_name artist title metadata) as [final_artist final_title].
  destruct (shutil_move E audio _ w4) as [[[] | e] w5]; eauto.
Qed.

Lemma process_entries_cons playlist_dir n i video videos counts :
  process_entries E temp_dir playlist_dir n i (video :: videos) counts
  = if negb (opt_truthy video)
    then process_entries E temp_dir playlist_dir n (S i) videos counts
    else
      counts' ← process_entry E temp_dir playlist_dir n i (default ∅ video)
                  counts;
      process_entries E temp_dir playlist_dir n (S i) videos counts'.
Proof. reflexivity. Qed.

Lemma process_entries_tally playlist_dir n videos :
  forall i s f w,
  exists s' f' w',
    process_entries E temp_dir playlist_dir n i videos (s, f) w
    = (Ret (s', f'), w')
    /\ (s' + length f'
        = s + length f + length (List.filter opt_truthy videos))%nat.
Proof.
  induction videos as [|video videos IH]; intros i s f w.
  - exists s, f, w. split; [reflexivity | simpl; lia].
  - rewrite process_entries_cons. simpl List.filter.
    destruct (opt_truthy video) eqn:Hv; unfold negb; cbv beta iota.
    + unfold_monad.
      destruct (process_entry_one_outcome playlist_dir n i (default ∅ video)
                  (s, f) w) as ([s1 f1] & w1 & -> & Hone).
      destruct (IH (S i) s1 f1 w1) as (s' & f' & w' & -> & Hsum).
      exists s', f', w'. split; [reflexivity|].
      destruct Hone as [Hone | Hone]; simpl in Hone; inversion Hone; subst.
      * simpl. lia.
      * rewrite length_app in Hsum. simpl in *. lia.
    + destruct (IH (S i) s f w) as (s' & f' & w' & -> & Hsum). eauto.
Qed.

Lemma available_count (videos : list (option dict)) :
  length (List.filter opt_truthy videos)
  = (length videos - length (List.filter unavailable videos))%nat.
Proof.
  assert (length (List.filter opt_truthy videos)
          + length (List.filter unavailable videos) = length videos)%nat
    as H; [|lia].
  induction videos as [|video videos IH]; simpl; [reflexivity|].
  unfold unavailable at 1. destruct (opt_truthy video); simpl; lia.
Qed.

(** C1. Over a playlist of N entries of which K are unavailable ([None], or
    an empty record: the values for which [not video] holds), an unavailable
    entry is passed over with the counters untouched, the pass for any
    other entry returns and adds exactly one outcome (one success or one
    failure), and the loop ends with
    [successful_downloads + len(failed_downloads) = N - K]. *)
Theorem process_playlist_counts_outcomes playlist_dir videos w :
  (forall n i rest counts w',
      process_entries E temp_dir playlist_dir n i (None :: rest) counts w'
      = process_entries E temp_dir playlist_dir n (S i) rest counts w'
      /\ process_entries E temp_dir playlist_dir n i (Some ∅ :: rest) counts
           w'
         = process_entries E temp_dir playlist_dir n (S i) rest counts w')
  /\ (forall n i video counts w',
         exists counts' w'',
           process_entry E temp_dir playlist_dir n i video counts w'
           = (Ret counts', w'')
           /\ one_outcome i video counts counts')
  /\ exists successful failed w',
       process_playlist_loop E temp_dir playlist_dir videos w
       = (Ret (successful, failed), w')
       /\ (successful + length failed
           = length videos - length (List.filter unavailable videos))%nat.
Proof.
  split; [|split].
  - intros; split; reflexivity.
  - intros; apply process_entry_one_outcome.
  - unfold process_playlist_loop.
    destruct (process_entries_tally playlist_dir (length videos) videos
                1%nat 0%nat [] w) as (s & f & w' & Hrun & Hsum).
    exists s, f, w'. split; [exact Hrun|].
    rewrite <- available_count. simpl in Hsum. lia.
Qed.

(** C2. For an entry whose media fetch delivers an existing file, the
    catalog lookup and the tag write return whatever the catalog, the cover
    art server, the lyrics client and the tag library do (each may fail),
    and when the move of the file to its final path then succeeds, the
    entry is a success: the pass returns with one success more and the
    failures as they were, in the world that the move left, after the
    completion line and the pause. *)
Theorem lookup_failures_keep_success playlist_dir n i video s f w audio w1 w2 :
  download_audio E video temp_dir (fetch_world E n i video w)
  = (Ret (Some audio), w1) ->
  path_exists E audio w1 = (Ret true, w2) ->
  let parsed := extract_artist_title (reported_title i video) in
  exists metadata w3 w4,
    search_itunes_metadata E (snd parsed) (fst parsed) w2 = (Ret metadata, w3)
    /\ add_metadata_to_mp3 E audio video metadata w3 = (Ret tt, w4)
    /\ let name := merge_name (fst parsed) (snd parsed) metadata in
       let final := final_name (fst name) (snd name) in
       forall w5,
         shutil_move E audio (path_join playlist_dir final) w4
         = (Ret tt, w5) ->
         process_entry E temp_dir playlist_dir n i video (s, f) w
         = (Ret (S s, f),
            time_sleep E 1
              (logger E INFO ([0x2705] ++ py " Completed: " ++ final) w5)).
Proof.
  intros Hfetch Hexists parsed.
  destruct (search_itunes_metadata_returns (snd parsed) (fst parsed) w2)
    as (metadata & w3 & Hsearch).
  destruct (add_metadata_to_mp3_returns audio video metadata w3)
    as (w4 & Hadd).
  exists metadata, w3, w4. split; [exact Hsearch|]. split; [exact Hadd|].
  intros name final w5 Hmove.
  unfold process_entry, log, sleep. unfold_monad. cbv beta iota zeta.
  unfold fetch_world in Hfetch. rewrite Hfetch, Hexists. simpl.
  subst final name parsed.
  destruct (extract_artist_title _) as [artist title].
  simpl in Hsearch, Hmove |- *. rewrite Hsearch, Hadd.
  destruct (merge_name artist title metadata) as [final_artist final_title].
  simpl in Hmove |- *. rewrite Hmove. reflexivity.
Qed.

(** C8, as the code has it. When the body of the tag writer raises (during
    open, a field write, a lookup or save), [add_metadata_to_mp3] catches
    the exception, logs it as an error under the file's name and returns
    normally, with nothing for its caller to read; the loop goes on to
    move the file, and when that move succeeds the entry is counted as a
    success: its pass returns, so the run continues, and no failure is
    recorded for it. *)
Theorem tag_write_exception_is_swallowed playlist_dir n i video s f w
    audio w1 w2 artist title metadata w3 e w4 :
  download_audio E video temp_dir (fetch_world E n i video w)
  = (Ret (Some audio), w1) ->
  path_exists E audio w1 = (Ret true, w2) ->
  extract_artist_title (reported_title i video) = (artist, title) ->
  search_itunes_metadata E title artist w2 = (Ret metadata, w3) ->
  write_tags E audio video metadata w3 = (Raise e, w4) ->
  let logged :=
    logger E ERROR
      (py "Failed to add metadata to " ++ path_name audio ++ py ": "
         ++ message e) w4 in
  let name := merge_name artist title metadata in
  let final := final_name (fst name) (snd name) in
  add_metadata_to_mp3 E audio video metadata w3 = (Ret tt, logged)
  /\ forall w5,
       shutil_move E audio (path_join playlist_dir final) logged
       = (Ret tt, w5) ->
       process_entry E temp_dir playlist_dir n i video (s, f) w
       = (Ret (S s, f),
          time_sleep E 1
            (logger E INFO ([0x2705] ++ py " Completed: " ++ final) w5)).
Proof.
  intros Hfetch Hexists Hparse Hsearch Hraise logged name final.
  assert (add_metadata_to_mp3 E audio video metadata w3 = (Ret tt, logged))
    as Hadd.
  { unfold add_metadata_to_mp3, log. unfold_monad. rewrite Hraise.
    reflexivity. }
  split; [exact Hadd|].
  intros w5 Hmove.
  unfold process_entry, log, sleep. unfold_monad. cbv beta iota zeta.
  unfold fetch_world in Hfetch. rewrite Hfetch, Hexists. simpl.
  rewrite Hparse, Hsearch, Hadd.
  subst final name.
  destruct (merge_name artist title metadata) as [final_artist final_title].
  simpl in Hmove |- *. rewrite Hmove. reflexivity.
Qed.
End Loop.

(** C2 on a run without network: the catalog lookup times out, no cover art
    and no lyrics are fetched, the move succeeds, and the entry is a
    success. *)
Lemma lookup_failures_keep_success_witness :
  fst (search_itunes_metadata Sample.offline (py "One More Time")
         (py "Daft Punk") []) = Ret None
  /\ exists w',
       process_entry Sample.offline Sample.temp Sample.out 1 1 Sample.song
         (0%nat, []) [] = (Ret (1%nat, []), w').
Proof.
  split; [vm_compute; reflexivity|].
  edestruct (lookup_failures_keep_success Sample.offline Sample.temp
               Sample.out 1 1 Sample.song 0 [] [])
    as (metadata & w3 & w4 & _ & _ & Hmove).
  - vm_compute. reflexivity.
  - vm_compute. reflexivity.
  - eexists. apply (Hmove w4). reflexivity.
Defined.

(** C8 where every file already carries an ID3 tag: [add_tags] raises, the
    tag writer logs the error and returns, the move succeeds, and the entry
    is still a success. *)
Lemma tag_write_exception_is_swallowed_witness :
  exists w4 w',
    add_metadata_to_mp3 Sample.tagged
      (path_join Sample.temp
         (py "Daft Punk - One More Time (Official Video).mp3"))
      Sample.song None
      (snd (search_itunes_metadata Sample.tagged (py "One More Time")
              (py "Daft Punk") (fetch_world Sample.tagged 1 1 Sample.song [])))
    = (Ret tt, w4)
    /\ process_entry Sample.tagged Sample.temp Sample.out 1 1 Sample.song
         (0%nat, []) [] = (Ret (1%nat, []), w').
Proof.
  edestruct (tag_write_exception_is_swallowed Sample.tagged Sample.temp
               Sample.out 1 1 Sample.song 0 [] []) as [Hadd Hrun].
  - vm_compute. reflexivity.
  - vm_compute. reflexivity.
  - vm_compute. reflexivity.
  - vm_compute. reflexivity.
  - vm_compute. reflexivity.
  - eexists _, _. split; [exact Hadd|]. apply Hrun. reflexivity.
Defined.

(** C8 refuted as stated: with a tag library that raises on every file, the
    tag writer raises inside, yet the run's counters are those of the run
    whose tag writes all succeed: one success, no failure recorded. *)
Lemma tag_write_exception_not_recorded :
  fst (write_tags Sample.tagged
         (path_join Sample.temp
            (py "Daft Punk - One More Time (Official Video).mp3"))
         Sample.song None [])
  = Raise (mkExn OtherException (py "an ID3 tag already exists"))
  /\ fst (process_playlist_loop Sample.tagged Sample.temp Sample.out
            [Some Sample.song] [])
     = Ret (1%nat, [])
  /\ fst (process_playlist_loop Sample.offline Sample.temp Sample.out
            [Some Sample.song] [])
     = Ret (1%nat, []).
Proof. vm_compute. repeat split; reflexivity. Qed.

(** ** The metadata resolver *)

Section Resolver.
Context {W : Type} (E : Env W).

Lemma candidate_metadata_fields title artist result :
  candidate_metadata title artist result !! "title"
  = Some (default title (result !! "trackName"))
  /\ candidate_metadata title artist result !! "artist"
     = Some (default artist (result !! "artistName"))
  /\ candidate_metadata title artist result !! "album"
     = Some (default [] (result !! "collectionName"))
  /\ candidate_metadata title artist result !! "genre"
     = Some (default [] (result !! "primaryGenreName"))
  /\ candidate_metadata title artist result !! "year"
     = Some (match result !! "releaseDate" with
             | Some date => take 4 date
             | None => []
             end)
  /\ candidate_metadata title artist result !! "artwork_url"
     = Some (replace (py "100x100") (py "600x600")
               (default [] (result !! "artworkUrl100"))).
Proof.
  unfold candidate_metadata, get_or, get_truthy.
  repeat split; simplify_map_eq; try reflexivity.
  destruct (result !! "releaseDate") as [[|c date]|]; reflexivity.
Qed.

(** C9. When the catalog's answer holds at least one candidate, the
    resolver returns the record built from the first one, whatever it is:
    its year is the first four characters of the release date (empty when
    there is none) and its artwork URL is the candidate's with every
    [100x100] replaced by [600x600]; when the request raises (network
    failure, timeout, undecodable body) or the result list is missing or
    empty, it returns [None]. *)
Theorem search_itunes_metadata_first_candidate title artist w :
  match itunes_get E (search_term E title artist) w with
  | (Ret data, w') =>
      match results data with
      | Some (result :: _) =>
          exists metadata,
            search_itunes_metadata E title artist w = (Ret (Some metadata), w')
            /\ metadata !! "title"
               = Some (default title (result !! "trackName"))
            /\ metadata !! "artist"
               = Some (default artist (result !! "artistName"))
            /\ metadata !! "album"
               = Some (default [] (result !! "collectionName"))
            /\ metadata !! "genre"
               = Some (default [] (result !! "primaryGenreName"))
            /\ metadata !! "year"
               = Some (match result !! "releaseDate" with
                       | Some date => take 4 date
                       | None => []
                       end)
            /\ metadata !! "artwork_url"
               = Some (replace (py "100x100") (py "600x600")
                         (default [] (result !! "artworkUrl100")))
      | _ => search_itunes_metadata E title artist w = (Ret None, w')
      end
  | (Raise e, w') =>
      fst (search_itunes_metadata E title artist w) = Ret None
  end.
Proof.
  unfold search_itunes_metadata, log. unfold_monad.
  destruct (itunes_get E _ w) as [[data | e] w1]; [|reflexivity].
  destruct (results data) as [[|result rest]|]; try reflexivity.
  exists (candidate_metadata title artist result).
  split; [reflexivity | apply candidate_metadata_fields].
Qed.
End Resolver.

(** The resolver on a catalog that answers with [Sample.candidate]. *)
Example resolver_takes_first_candidate :
  match fst (search_itunes_metadata (Sample.online Sample.candidate)
               (py "one more time") (py "daft punk") []) with
  | Ret (Some metadata) =>
      metadata !! "title" = Some (py "One More Time")
      /\ metadata !! "year" = Some (py "2000")
      /\ metadata !! "artwork_url"
         = Some (py "https://is1.example/image/600x600bb.jpg")
  | _ => False
  end.
Proof. vm_compute. repeat split; reflexivity. Qed.

(** ** Merging *)

(** C3 refuted as stated: a candidate whose track name is the empty string
    gives a metadata record whose title is present and empty, and that empty
    title replaces the parsed one in both merges. *)
Lemma empty_canonical_title_overrides :
  let metadata :=
    candidate_metadata (py "One More Time") (py "Daft Punk")
      {[ "trackName" := [] ]} in
  metadata !! "title" = Some []
  /\ m_title (merge_tags (py "Daft Punk") (py "One More Time") (Some metadata))
     = []
  /\ merge_name (py "Daft Punk") (py "One More Time") (Some metadata)
     = (py "Daft Punk", []).
Proof. vm_compute. repeat split; reflexivity. Qed.

(** C3, as the code has it. With a metadata record at hand (a non-empty
    dictionary), each of its fields takes the place of the parsed value as
    soon as its key is there, empty or not; a missing key leaves the parsed
    artist or title, and an empty album, genre, year and artwork URL. With
    no metadata ([None], or an empty dictionary) the parsed values are used
    unchanged. *)
Theorem merge_overrides_on_presence artist title md :
  dict_truthy md = true ->
  merge_tags artist title (Some md)
  = mkMerged
      (match md !! "title" with Some v => v | None => title end)
      (match md !! "artist" with Some v => v | None => artist end)
      (match md !! "album" with Some v => v | None => [] end)
      (match md !! "genre" with Some v => v | None => [] end)
      (match md !! "year" with Some v => v | None => [] end)
      (match md !! "artwork_url" with Some v => v | None => [] end)
  /\ merge_name artist title (Some md)
     = (match md !! "artist" with Some v => v | None => artist end,
        match md !! "title" with Some v => v | None => title end)
  /\ merge_tags artist title None = mkMerged title artist [] [] [] []
  /\ merge_tags artist title (Some ∅) = mkMerged title artist [] [] [] []
  /\ merge_name artist title None = (artist, title)
  /\ merge_name artist title (Some ∅) = (artist, title).
Proof.
  intros Hmd. unfold merge_tags, merge_name, get_or. rewrite Hmd.
  repeat split; reflexivity.
Qed.

Lemma merge_overrides_on_presence_witness :
  merge_name (py "daft punk") (py "one more time")
    (Some {[ "artist" := py "Daft Punk" ]})
  = (py "Daft Punk", py "one more time").
Proof.
  destruct (merge_overrides_on_presence (py "daft punk") (py "one more time")
              {[ "artist" := py "Daft Punk" ]}) as (_ & Hname & _).
  - vm_compute. reflexivity.
  - exact Hname.
Defined.

(** ** The merged title *)

Lemma extract_with_no_match ps raw :
  Forall (fun p => Re.match_ p (strip raw) = None) ps ->
  extract_with ps raw = ([], strip raw).
Proof.
  induction 1 as [|p ps Hp _ IH]; simpl; [reflexivity|].
  rewrite Hp. exact IH.
Qed.

(** C4 refuted as stated: a raw title whose right part is nothing but a
    parenthesized suffix parses to an empty title, nothing puts the raw title
    back, and the empty title reaches both the tag writer's record and the
    file name. *)
Lemma merged_title_can_be_empty :
  extract_artist_title (py "Daft Punk - (Official Video)")
  = (py "Daft Punk", [])
  /\ m_title
       (tag_record {[ "title" := py "Daft Punk - (Official Video)" ]} None)
     = []
  /\ merge_name (py "Daft Punk") [] None = (py "Daft Punk", [])
  /\ final_name (py "Daft Punk") [] = py "Daft Punk - .mp3".
Proof. vm_compute. repeat split; reflexivity. Qed.

(** ** The tag writer *)

Section TagWriter.
Context {W : Type} (E : Env W).

Lemma bind_returns {A B} (m : M W A) (k : A -> M W B) w b w' :
  (m ≫= k) w = (Ret b, w') ->
  exists a w1, m w = (Ret a, w1) /\ k a w1 = (Ret b, w').
Proof.
  unfold_monad. destruct (m w) as [[a | e] w1]; [eauto | discriminate].
Qed.

Lemma mret_returns {A} (a b : A) (w w' : W) :
  mret (M := M W) a w = (Ret b, w') -> b = a.
Proof. unfold_monad. congruence. Qed.

Lemma add_returns mp3_path tags f w tags' w' :
  add E mp3_path tags f w = (Ret tags', w') -> tags' = tags ++ [f].
Proof.
  unfold add. intros H. apply bind_returns in H as (? & ? & _ & H).
  apply mret_returns in H. exact H.
Qed.

Lemma add_if_returns (b : bool) mp3_path tags f w tags' w' :
  (if b then add E mp3_path tags f else mret tags) w = (Ret tags', w') ->
  tags' = tags ++ (if b then [f] else []).
Proof.
  destruct b; intros H.
  - apply add_returns in H. exact H.
  - apply mret_returns in H. rewrite app_nil_r. exact H.
Qed.

(** What a completed tag write has added: the basic frames of its merged
    record, then at most a picture and lyrics. *)
Lemma write_tags_frames mp3_path video_info metadata w tags w' :
  write_tags E mp3_path video_info metadata w = (Ret tags, w') ->
  exists extra,
    tags = basic_frames (tag_record video_info metadata) ++ extra
    /\ forallb is_attachment extra = true.
Proof.
  unfold write_tags, tag_record, basic_frames.
  destruct (extract_artist_title _) as [artist title].
  set (t := merge_tags artist title metadata). intros H.
  apply bind_returns in H as (? & w0 & _ & H).
  apply bind_returns in H as (t1 & w1 & H1 & H). apply add_returns in H1.
  apply bind_returns in H as (t2 & w2 & H2 & H). apply add_if_returns in H2.
  apply bind_returns in H as (t3 & w3 & H3 & H). apply add_if_returns in H3.
  apply bind_returns in H as (t4 & w4 & H4 & H). apply add_if_returns in H4.
  apply bind_returns in H as (t5 & w5 & H5 & H). apply add_if_returns in H5.
  apply bind_returns in H as (t6 & w6 & H6 & H).
  apply bind_returns in H as (t7 & w7 & H7 & H).
  apply bind_returns in H as (? & w8 & _ & H).
  apply bind_returns in H as (? & w9 & _ & H).
  apply mret_returns in H. subst tags.
  assert (exists x, t6 = t5 ++ x /\ forallb is_attachment x = true)
    as (x6 & -> & Hx6).
  { destruct (truthy (m_artwork_url t)).
    - apply bind_returns in H6 as (cover & ? & _ & H6).
      destruct cover as [[|b data]|].
      + apply mret_returns in H6. exists []. rewrite app_nil_r. auto.
      + apply add_returns in H6. eauto.
      + apply mret_returns in H6. exists []. rewrite app_nil_r. auto.
    - apply mret_returns in H6. exists []. rewrite app_nil_r. auto. }
  assert (exists x, t7 = (t5 ++ x6) ++ x /\ forallb is_attachment x = true)
    as (x7 & -> & Hx7).
  { destruct (genius E && truthy (m_artist t) && truthy (m_title t)).
    - apply bind_returns in H7 as (lyrics & ? & _ & H7).
      destruct lyrics as [[|c lyrics]|].
      + apply mret_returns in H7. exists []. rewrite app_nil_r. auto.
      + apply add_returns in H7. eauto.
      + apply mret_returns in H7. exists []. rewrite app_nil_r. auto.
    - apply mret_returns in H7. exists []. rewrite app_nil_r. auto. }
  exists (x6 ++ x7). subst. split.
  - simpl. rewrite <- !app_assoc. reflexivity.
  - rewrite forallb_app, Hx6, Hx7. reflexivity.
Qed.

(** C7, as the code has it. A tag write that completes has written the
    title frame in any case, empty title included, and each of the artist,
    album, genre and year frames exactly when its value is not empty. *)
Theorem write_tags_writes_title_always mp3_path video_info metadata w tags w' :
  write_tags E mp3_path video_info metadata w = (Ret tags, w') ->
  let t := tag_record video_info metadata in
  (forall x, In (TIT2 x) tags <-> x = m_title t)
  /\ (forall x, In (TPE1 x) tags <-> x = m_artist t /\ x <> [])
  /\ (forall x, In (TALB x) tags <-> x = m_album t /\ x <> [])
  /\ (forall x, In (TCON x) tags <-> x = m_genre t /\ x <> [])
  /\ (forall x, In (TDRC x) tags <-> x = m_year t /\ x <> []).
Proof.
  intros H t. apply write_tags_frames in H as (extra & -> & Hextra).
  fold t. unfold basic_frames.
  assert (forall f, In f extra -> is_attachment f = true) as Hext.
  { intros f Hf. rewrite forallb_forall in Hextra. auto. }
  repeat apply conj; intros x; split; intros Hx;
    repeat (rewrite in_app_iff in * || simpl in * );
    destruct (m_artist t) as [|? ?], (m_album t) as [|? ?],
             (m_genre t) as [|? ?], (m_year t) as [|? ?];
    simpl in *;
    repeat match goal with
           | H : _ \/ _ |- _ => destruct H
           | H : _ /\ _ |- _ => destruct H
           | H : In ?f extra |- _ => apply Hext in H; discriminate H
           | H : False |- _ => destruct H
           | H : _ = _ |- _ => first [discriminate H | injection H as ?; subst]
           end;
    try congruence; subst; auto 10.
Qed.
End TagWriter.

(** C7 refuted as stated: for an entry whose parsed title is empty, the tag
    write completes with an empty title frame among the frames written. *)
Lemma empty_title_frame_is_written :
  fst (write_tags Sample.offline
         (path_join Sample.temp (py "x.mp3"))
         {[ "title" := py "Daft Punk - (Official Video)" ]} None [])
  = Ret [TIT2 []; TPE1 (py "Daft Punk")].
Proof. vm_compute. reflexivity. Qed.

Lemma write_tags_writes_title_always_witness :
  (forall x, In (TIT2 x) [TIT2 (py "One More Time"); TPE1 (py "Daft Punk")]
             <-> x = py "One More Time")
  /\ (forall x, In (TPE1 x) [TIT2 (py "One More Time"); TPE1 (py "Daft Punk")]
                <-> x = py "Daft Punk" /\ x <> []).
Proof.
  destruct (write_tags_writes_title_always Sample.offline
              (path_join Sample.temp (py "x.mp3")) Sample.song None []
              [TIT2 (py "One More Time"); TPE1 (py "Daft Punk")]
              [(INFO, py "Added metadata to: x.mp3")])
    as (Htitle & Hartist & _).
  - vm_compute. reflexivity.
  - split; [exact Htitle | exact Hartist].
Defined.

(** ** File names *)

(** C10. The final name need not end in [.mp3]: an entry with an empty title
    and no metadata parses to an empty artist and title, and its formatted
    name [.mp3] loses the dot to the trimming of dots; a title of 300
    letters, whose formatted name has 304 characters, loses the whole
    extension to the cut at 200. *)
Theorem final_name_can_lose_extension :
  (extract_artist_title [] = ([], [])
   /\ merge_name [] [] None = ([], [])
   /\ final_name [] [] = py "mp3"
   /\ ends_with (py ".mp3") (final_name [] []) = false)
  /\ (length (repeat 0x61 300 ++ py ".mp3") = 304%nat
      /\ final_name [] (repeat 0x61 300) = repeat 0x61 200
      /\ ends_with (py ".mp3") (final_name [] (repeat 0x61 300)) = false).
Proof. vm_compute. repeat split; reflexivity. Qed.

(** C5 on the inputs where the code falls short of it: trimming white space
    before dots leaves the space that followed a leading dot, and cutting at
    200 characters after trimming leaves whatever ends up last; a second
    pass removes both, so the sanitizer is not idempotent. *)
Theorem clean_filename_leaves_edge_characters :
  (clean_filename (py ". a") = py " a"
   /\ clean_filename (clean_filename (py ". a")) = py "a")
  /\ (clean_filename (repeat 0x61 199 ++ py " b") = repeat 0x61 199 ++ py " "
      /\ clean_filename (clean_filename (repeat 0x61 199 ++ py " b"))
         = repeat 0x61 199)
  /\ clean_filename (repeat 0x61 199 ++ py ".b") = repeat 0x61 199 ++ py ".".
Proof. vm_compute. repeat split; reflexivity. Qed.

(** ** The title parser *)

Section Suffix.
Variables o c : char.
Hypothesis o_not_space : is_space o = false.

Lemma closes_shape u :
  closes c u = true <->
  exists body ws',
    u = body ++ c :: ws'
    /\ forallb dot body = true /\ forallb is_space ws' = true.
Proof.
  induction u as [|y u IH]; simpl.
  - split; [discriminate|]. intros ([|? ?] & ? & H & _); discriminate H.
  - rewrite orb_true_iff, !andb_true_iff, IH, N.eqb_eq. split.
    + intros [[-> Hws] | [Hy (body & ws' & -> & Hbody & Hws)]].
      * exists [], u. auto.
      * exists (y :: body), ws'. simpl. rewrite Hy, Hbody. auto.
    + intros ([|b body] & ws' & Hu & Hbody & Hws); simpl in Hu.
      * injection Hu as -> ->. auto.
      * injection Hu as -> ->. simpl in Hbody.
        apply andb_true_iff in Hbody as [Hb Hbody]. right. split; [exact Hb|].
        exists body, ws'. auto.
Qed.

Lemma opens_shape u : opens o c u = true <-> suffix_shape o c u.
Proof.
  unfold suffix_shape. induction u as [|x u IH]; simpl.
  - split; [discriminate|]. intros ([|? ?] & ? & ? & H & _); discriminate H.
  - rewrite orb_true_iff, !andb_true_iff, IH, N.eqb_eq, closes_shape. split.
    + intros [[-> (body & ws' & -> & Hbody & Hws)]
             | [Hx (ws & body & ws' & -> & Hws & Hbody & Hws')]].
      * exists [], body, ws'. auto.
      * exists (x :: ws), body, ws'. simpl. rewrite Hx, Hws. auto.
    + intros ([|s ws] & body & ws' & Hu & Hws & Hbody & Hws'); simpl in Hu.
      * injection Hu as -> ->. left. split; [reflexivity|].
        exists body, ws'. auto.
      * injection Hu as -> ->. simpl in Hws.
        apply andb_true_iff in Hws as [Hs Hws]. right. split; [exact Hs|].
        exists ws, body, ws'. auto.
Qed.

Lemma run_cls p r pos x u cs :
  Re.run (Re.Cls p :: r) pos (x :: u) cs
  = if p x then Re.run r (S pos) u cs else None.
Proof. reflexivity. Qed.

Lemma run_greedy p r pos u cs :
  Re.run (Re.Rep true 0 p :: r) pos u cs
  = Re.rep_greedy p (fun pos' rest' => Re.run r pos' rest' cs) 0 pos u.
Proof. reflexivity. Qed.

Lemma run_lazy p r pos u cs :
  Re.run (Re.Rep false 0 p :: r) pos u cs
  = Re.rep_lazy p (fun pos' rest' => Re.run r pos' rest' cs) 0 pos u.
Proof. reflexivity. Qed.

Lemma rep_greedy_cons {R} p (k : nat -> str -> option R) pos x u :
  Re.rep_greedy p k 0 pos (x :: u)
  = if p x then
      match Re.rep_greedy p k 0 (S pos) u with
      | Some r => Some r
      | None => k pos (x :: u)
      end
    else k pos (x :: u).
Proof. reflexivity. Qed.

Lemma rep_lazy_cons {R} p (k : nat -> str -> option R) pos x u :
  Re.rep_lazy p k 0 pos (x :: u)
  = match k pos (x :: u) with
    | Some r => Some r
    | None => if p x then Re.rep_lazy p k 0 (S pos) u else None
    end.
Proof. reflexivity. Qed.

(** The tail [\s*$] matches exactly a stretch of white space, up to the
    end of the subject. *)
Lemma run_tail cs u pos :
  Re.run [Re.Rep true 0 is_space; Re.Eol] pos u cs
  = if forallb is_space u then Some ((pos + length u)%nat, cs) else None.
Proof.
  rewrite run_greedy. revert pos.
  induction u as [|x u IH]; intros pos.
  - simpl. f_equal. f_equal. lia.
  - rewrite rep_greedy_cons, IH. cbv beta. cbn [forallb].
    destruct (is_space x) eqn:Hx; cbn [andb].
    + destruct (forallb is_space u) eqn:Hu.
      * f_equal. f_equal. simpl. lia.
      * destruct u; [discriminate Hu|]. reflexivity.
    + destruct u; [|reflexivity]. simpl.
      destruct (x =? 10) eqn:Hnl; [|reflexivity].
      apply N.eqb_eq in Hnl. subst x. discriminate Hx.
Qed.

Lemma run_close cs u pos :
  Re.run [Re.Rep false 0 dot; Re.Cls (N.eqb c); Re.Rep true 0 is_space;
          Re.Eol] pos u cs
  = if closes c u then Some ((pos + length u)%nat, cs) else None.
Proof.
  rewrite run_lazy. revert pos.
  induction u as [|y u IH]; intros pos.
  - reflexivity.
  - rewrite rep_lazy_cons, IH. cbv beta. rewrite run_cls, run_tail.
    cbn [closes length].
    destruct (c =? y), (forallb is_space u), (dot y), (closes c u);
      cbn [andb orb]; try reflexivity; f_equal; f_equal; lia.
Qed.

(** The whole suffix pattern matches from an offset exactly when the rest
    of the subject has the suffix shape, and then it matches all of it. *)
Lemma run_suffix_pattern cs u pos :
  Re.run (suffix_pattern o c) pos u cs
  = if opens o c u then Some ((pos + length u)%nat, cs) else None.
Proof.
  unfold suffix_pattern. rewrite run_greedy. revert pos.
  induction u as [|x u IH]; intros pos.
  - reflexivity.
  - rewrite rep_greedy_cons, IH. cbv beta. rewrite run_cls, run_close.
    cbn [opens length].
    destruct (is_space x) eqn:Hx.
    + assert ((o =? x) = false) as ->.
      { apply N.eqb_neq. intros ->. congruence. }
      cbn [andb orb]. destruct (opens o c u); [|reflexivity].
      f_equal. f_equal. lia.
    + cbn [andb]. rewrite orb_false_r.
      destruct (o =? x), (closes c u); cbn [andb]; try reflexivity.
      f_equal. f_equal. lia.
Qed.

Lemma sub_from_skips_all r pos u :
  Re.sub_from r [] pos (length u) u = [].
Proof.
  revert pos. induction u as [|x u IH]; intros pos; simpl.
  - destruct (Re.run r pos [] Re.no_caps); reflexivity.
  - apply IH.
Qed.

Lemma sub_suffix_pattern u :
  forall pos,
    Re.sub_from (suffix_pattern o c) [] pos 0 u = cut_suffix o c u.
Proof.
  induction u as [|x u IH]; intros pos.
  - cbn [Re.sub_from cut_suffix]. rewrite run_suffix_pattern. reflexivity.
  - cbn [Re.sub_from cut_suffix]. rewrite run_suffix_pattern.
    destruct (opens o c (x :: u)).
    + assert (Nat.eqb (pos + length (x :: u)) pos = false) as ->.
      { apply Nat.eqb_neq. simpl. lia. }
      replace (pos + length (x :: u) - pos - 1)%nat with (length u)
        by (simpl; lia).
      simpl. apply sub_from_skips_all.
    + rewrite IH. reflexivity.
Qed.

Lemma cut_suffix_leftmost t : removes_leftmost o c t (cut_suffix o c t).
Proof.
  unfold removes_leftmost.
  induction t as [|x t IH].
  - right. split; [|reflexivity].
    intros q H. rewrite drop_nil in H. apply opens_shape in H. discriminate.
  - cbn [cut_suffix]. destruct (opens o c (x :: t)) eqn:Hopen.
    + left. exists 0%nat. rewrite drop_0, take_0.
      repeat split; [simpl; lia | apply opens_shape; exact Hopen | lia].
    + assert (~ suffix_shape o c (x :: t)) as Hhere.
      { intros H. apply opens_shape in H. congruence. }
      destruct IH as [(p & Hp & Hshape & Hleft & ->) | [Hnone ->]].
      * left. exists (S p). simpl. repeat split; [lia | exact Hshape | ].
        intros [|q] Hq; [exact Hhere | apply Hleft; lia].
      * right. split; [|reflexivity].
        intros [|q]; [exact Hhere | apply Hnone].
Qed.

Lemma sub_suffix_leftmost t :
  removes_leftmost o c t (Re.sub (suffix_pattern o c) [] t).
Proof.
  unfold Re.sub. rewrite sub_suffix_pattern. apply cut_suffix_leftmost.
Qed.
End Suffix.

Lemma extract_with_patterns raw :
  extract_artist_title raw
  = match first_match (strip raw) with
    | Some (group1, group2) =>
        (strip group1,
         Re.sub (suffix_pattern 0x5B 0x5D) []
           (Re.sub (suffix_pattern 0x28 0x29) [] (strip group2)))
    | None => ([], strip raw)
    end.
Proof.
  unfold extract_artist_title, patterns, first_match, groups_of.
  cbn [extract_with].
  destruct (Re.match_ (separator_pattern is_dash) (strip raw)) as [m|];
    [reflexivity|].
  destruct (Re.match_ (separator_pattern (N.eqb 0x3A)) (strip raw)) as [m|];
    [reflexivity|].
  destruct (Re.match_ (separator_pattern (N.eqb 0x7C)) (strip raw)) as [m|];
    reflexivity.
Qed.

(** C6 refuted as stated: on a title that ends in two parenthesized groups
    the parser removes both, where removing exactly one trailing group would
    leave the first. *)
Lemma two_suffixes_are_removed :
  extract_artist_title (py "Daft Punk - One More Time (Remix) (Official Video)")
  = (py "Daft Punk", py "One More Time")
  /\ one_suffix_removed 0x5B 0x5D
       (one_suffix_removed 0x28 0x29
          (py "One More Time (Remix) (Official Video)"))
     = py "One More Time (Remix)"
  /\ snd (extract_artist_title
            (py "Daft Punk - One More Time (Remix) (Official Video)"))
     <> one_suffix_removed 0x5B 0x5D
          (one_suffix_removed 0x28 0x29
             (py "One More Time (Remix) (Official Video)")).
Proof. vm_compute. repeat split; [reflexivity.. | discriminate]. Qed.

(** C6, as the code has it. The dash pattern is tried first, then the colon,
    then the pipe, and the first that matches decides; its left group,
    trimmed, is the artist, and its right group, trimmed, is the title after
    two substitutions, for round and then for square brackets. Each
    substitution removes the part of the title from the leftmost offset at
    which the rest of the title is white space, the opening bracket, a
    stretch without line feed, the closing bracket and white space up to the
    end, so it can take several bracketed groups at once; it leaves the
    title alone when there is no such offset. When no pattern matches, the
    artist is empty and the title is the trimmed raw title. *)
Theorem extract_artist_title_first_pattern_wins raw :
  extract_artist_title raw
  = match first_match (strip raw) with
    | Some (group1, group2) =>
        (strip group1,
         Re.sub (suffix_pattern 0x5B 0x5D) []
           (Re.sub (suffix_pattern 0x28 0x29) [] (strip group2)))
    | None => ([], strip raw)
    end
  /\ (forall t,
         removes_leftmost 0x28 0x29 t (Re.sub (suffix_pattern 0x28 0x29) [] t))
  /\ (forall t,
         removes_leftmost 0x5B 0x5D t (Re.sub (suffix_pattern 0x5B 0x5D) [] t)).
Proof.
  split; [apply extract_with_patterns|].
  split; intros t; apply sub_suffix_leftmost; reflexivity.
Qed.

(** ** The separator patterns *)

Lemma rep_greedy_sound {R} p (k : nat -> str -> option R) rest :
  forall min pos r,
    Re.rep_greedy p k min pos rest = Some r ->
    exists pre post,
      rest = pre ++ post
      /\ forallb p pre = true
      /\ (min <= length pre)%nat
      /\ k (pos + length pre)%nat post = Some r.
Proof.
  induction rest as [|x rest IH]; intros min pos r H; simpl in H.
  - destruct min; [|discriminate]. exists [], []. simpl.
    rewrite Nat.add_0_r. auto.
  - assert (match min with O => k pos (x :: rest) | S _ => None end = Some r
            -> exists pre post,
                 x :: rest = pre ++ post /\ forallb p pre = true
                 /\ (min <= length pre)%nat
                 /\ k (pos + length pre)%nat post = Some r) as Hstop.
    { destruct min; [|discriminate]. intros Hk. exists [], (x :: rest).
      simpl. rewrite Nat.add_0_r. auto. }
    destruct (p x) eqn:Hx; [|auto].
    destruct (Re.rep_greedy p k (Nat.pred min) (S pos) rest) as [r'|] eqn:Hrec;
      [|auto].
    injection H as ->.
    apply IH in Hrec as (pre & post & -> & Hpre & Hmin & Hk).
    exists (x :: pre), post. simpl. rewrite Hx, Hpre.
    rewrite Nat.add_succ_r. repeat split; [lia | exact Hk].
Qed.

Lemma rep_lazy_sound {R} p (k : nat -> str -> option R) rest :
  forall min pos r,
    Re.rep_lazy p k min pos rest = Some r ->
    exists pre post,
      rest = pre ++ post
      /\ forallb p pre = true
      /\ (min <= length pre)%nat
      /\ k (pos + length pre)%nat post = Some r.
Proof.
  induction rest as [|x rest IH]; intros min pos r H; simpl in H.
  - destruct min; [|discriminate].
    destruct (k pos []) eqn:Hk; [|discriminate]. injection H as ->.
    exists [], []. simpl. rewrite Nat.add_0_r. auto.
  - assert ((if p x then Re.rep_lazy p k (Nat.pred min) (S pos) rest else None)
            = Some r
            -> exists pre post,
                 x :: rest = pre ++ post /\ forallb p pre = true
                 /\ (min <= length pre)%nat
                 /\ k (pos + length pre)%nat post = Some r) as Hmore.
    { destruct (p x) eqn:Hx; [|discriminate]. intros Hrec.
      apply IH in Hrec as (pre & post & -> & Hpre & Hmin & Hk).
      exists (x :: pre), post. simpl. rewrite Hx, Hpre.
      rewrite Nat.add_succ_r. repeat split; [lia | exact Hk]. }
    destruct min; [|auto].
    destruct (k pos (x :: rest)) as [r'|] eqn:Hk; [|auto].
    injection H as ->. exists [], (x :: rest). simpl.
    rewrite Nat.add_0_r. auto.
Qed.

Lemma separator_match_split sep s m :
  Re.match_ (separator_pattern sep) s = Some m ->
  exists ws x ws' tail,
    s = Re.group m 1 ++ ws ++ x :: ws' ++ Re.group m 2 ++ tail
    /\ Re.group m 1 <> [] /\ forallb dot (Re.group m 1) = true
    /\ forallb is_space ws = true /\ sep x = true
    /\ forallb is_space ws' = true
    /\ Re.group m 2 <> [] /\ forallb dot (Re.group m 2) = true
    /\ Re.at_eol tail = true.
Proof.
  unfold Re.match_, separator_pattern.
  destruct (Re.run _ 0 s Re.no_caps) as [[e cs]|] eqn:H; [|discriminate].
  intros Hm. injection Hm as <-.
  cbn [Re.run Nat.eqb] in H.
  apply rep_lazy_sound in H as (g1 & r1 & -> & Hg1 & Hn1 & H).
  apply rep_greedy_sound in H as (ws & r2 & -> & Hws & _ & H).
  destruct r2 as [|x r3]; [discriminate|].
  destruct (sep x) eqn:Hsep; [|discriminate].
  apply rep_greedy_sound in H as (ws' & r4 & -> & Hws' & _ & H).
  apply rep_greedy_sound in H as (g2 & tail & -> & Hg2 & Hn2 & H).
  destruct (Re.at_eol tail) eqn:Htail; [|discriminate].
  injection H as <- <-.
  match goal with
  | |- context [Re.group ?m 1] =>
      assert (Re.group m 1 = g1) as ->;
      [unfold Re.group; simpl;
       rewrite Nat.sub_0_r, drop_0; apply take_app_length|];
      assert (Re.group m 2 = g2) as ->
  end.
  { unfold Re.group. cbn -[take drop Nat.sub].
    replace (S (length g1 + length ws + length ws' + length g2)
             - S (length g1 + length ws + length ws'))%nat
      with (length g2) by lia.
    replace (g1 ++ ws ++ x :: ws' ++ g2 ++ tail)
      with ((g1 ++ ws ++ x :: ws') ++ g2 ++ tail)
      by (rewrite <- !app_assoc; reflexivity).
    replace (S (length g1 + length ws + length ws'))%nat
      with (length (g1 ++ ws ++ x :: ws'))
      by (rewrite !length_app; simpl; lia).
    rewrite drop_app_length. apply take_app_length. }
  exists ws, x, ws', tail.
  repeat split; try assumption.
  - destruct g1; [simpl in Hn1; lia | discriminate].
  - destruct g2; [simpl in Hn2; lia | discriminate].
Qed.

(** A match of a separator pattern splits the subject into the left group,
    white space, one separator character, white space, the right group and
    the end of the subject (or a last line feed); both groups are non-empty
    and hold no line feed. *)
Theorem separator_match_shape sep s m :
  Re.match_ (separator_pattern sep) s = Some m ->
  exists ws x ws' tail,
    s = Re.group m 1 ++ ws ++ x :: ws' ++ Re.group m 2 ++ tail
    /\ Re.group m 1 <> [] /\ forallb dot (Re.group m 1) = true
    /\ forallb is_space ws = true /\ sep x = true
    /\ forallb is_space ws' = true
    /\ Re.group m 2 <> [] /\ forallb dot (Re.group m 2) = true
    /\ Re.at_eol tail = true.
Proof. apply separator_match_split. Qed.

Lemma separator_match_shape_witness :
  exists m ws x ws' tail,
    Re.match_ (separator_pattern is_dash) (py "Daft Punk  - One More Time")
    = Some m
    /\ py "Daft Punk  - One More Time"
       = Re.group m 1 ++ ws ++ x :: ws' ++ Re.group m 2 ++ tail
    /\ Re.group m 1 = py "Daft Punk"
    /\ Re.group m 2 = py "One More Time".
Proof.
  destruct (Re.match_ (separator_pattern is_dash)
              (py "Daft Punk  - One More Time")) as [m|] eqn:Hm;
    [|vm_compute in Hm; discriminate Hm].
  destruct (separator_match_shape is_dash (py "Daft Punk  - One More Time") m
              Hm) as (ws & x & ws' & tail & Hs & _).
  exists m, ws, x, ws', tail.
  repeat split; [exact Hs | |];
    vm_compute in Hm; injection Hm as <-; vm_compute; reflexivity.
Defined.

(** The specification's example: the raw title, its parse and the final
    name. *)
Example daft_punk_one_more_time :
  extract_artist_title (py "Daft Punk - One More Time (Official Video)")
  = (py "Daft Punk", py "One More Time")
  /\ final_name (py "Daft Punk") (py "One More Time")
     = py "Daft Punk - One More Time.mp3".
Proof. vm_compute. split; reflexivity. Qed.

(** ** What the sanitizer does guarantee *)

Lemma sub_from_members r repl rest :
  forall pos skip x,
    In x (Re.sub_from r repl pos skip rest) -> In x repl \/ In x rest.
Proof.
  induction rest as [|c rest IH]; intros pos skip x; simpl.
  - destruct skip, (Re.run r pos [] Re.no_caps); simpl; tauto.
  - destruct skip as [|k].
    + destruct (Re.run r pos (c :: rest) Re.no_caps) as [[e cs]|].
      * destruct (Nat.eqb e pos); rewrite in_app_iff; simpl;
          intros [H | H]; auto;
          try (destruct H as [H | H]; auto);
          apply IH in H; tauto.
      * simpl. intros [H | H]; auto. apply IH in H. tauto.
    + intros H. apply IH in H. tauto.
Qed.

Lemma sub_class_removes p rest :
  forall pos x, In x (Re.sub_from [Re.Cls p] [] pos 0 rest) -> p x = false.
Proof.
  induction rest as [|c rest IH]; intros pos x; simpl; [tauto|].
  destruct (p c) eqn:Hc.
  - assert (Nat.eqb (S pos) pos = false) as -> by (apply Nat.eqb_neq; lia).
    replace (S pos - pos - 1)%nat with 0%nat by lia. simpl. apply IH.
  - simpl. intros [<- | H]; [exact Hc | eapply IH; exact H].
Qed.

Lemma lstrip_by_members p s x : In x (lstrip_by p s) -> In x s.
Proof.
  induction s as [|c s IH]; simpl; [tauto|].
  destruct (p c); simpl; tauto.
Qed.

Lemma strip_by_members p s x : In x (strip_by p s) -> In x s.
Proof.
  unfold strip_by, rstrip_by. rewrite <- in_rev. intros H.
  apply lstrip_by_members in H. rewrite <- in_rev in H.
  apply lstrip_by_members in H. exact H.
Qed.

Lemma take_members (n : nat) (s : str) x : In x (take n s) -> In x s.
Proof.
  revert n. induction s as [|c s IH]; intros [|n]; simpl; try tauto.
  intros [H | H]; [auto | right; eapply IH; exact H].
Qed.

Lemma lstrip_by_head p s :
  forall c, head (lstrip_by p s) = Some c -> p c = false.
Proof.
  induction s as [|d s IH]; simpl; [discriminate|].
  destruct (p d) eqn:Hd; [exact IH|]. simpl. intros c [= <-]. exact Hd.
Qed.

Lemma lstrip_by_snoc p s c :
  p c = false -> lstrip_by p (s ++ [c]) = lstrip_by p s ++ [c].
Proof.
  intros Hc. induction s as [|d s IH]; simpl.
  - rewrite Hc. reflexivity.
  - destruct (p d); [exact IH | reflexivity].
Qed.

Lemma rstrip_by_cons p c s :
  p c = false -> rstrip_by p (c :: s) = c :: rstrip_by p s.
Proof.
  intros Hc. unfold rstrip_by. simpl. rewrite lstrip_by_snoc by exact Hc.
  rewrite rev_app_distr. reflexivity.
Qed.

Lemma strip_by_head p s c : head (strip_by p s) = Some c -> p c = false.
Proof.
  unfold strip_by. destruct (lstrip_by p s) as [|d t] eqn:Hl.
  - discriminate.
  - assert (p d = false) as Hd.
    { apply (lstrip_by_head p s). rewrite Hl. reflexivity. }
    rewrite rstrip_by_cons by exact Hd. simpl. intros [= <-]. exact Hd.
Qed.

Lemma take_head (n : nat) (s : str) c :
  head (take n s) = Some c -> head s = Some c.
Proof. destruct n, s; simpl; try discriminate; auto. Qed.

(** For every input, the sanitized name holds none of the nine characters of
    line 111, has at most 200 characters and does not start with a dot. *)
Theorem clean_filename_is_safe filename :
  (forall x, In x (clean_filename filename) -> forbidden x = false)
  /\ (length (clean_filename filename) <= 200)%nat
  /\ head (clean_filename filename) <> Some 0x2E.
Proof.
  unfold clean_filename.
  set (s1 := Re.sub [Re.Cls forbidden] [] filename).
  set (s2 := strip (Re.sub [Re.Rep true 1 is_space] (py " ") s1)).
  set (s3 := strip_chars (py ".") s2).
  assert (forall x, In x s3 -> forbidden x = false) as Hchars.
  { intros x H. apply strip_by_members, strip_by_members in H.
    apply sub_from_members in H as [H | H].
    - simpl in H. destruct H as [<- | []]. reflexivity.
    - eapply sub_class_removes. exact H. }
  assert (head s3 <> Some 0x2E) as Hdot.
  { intros H. apply strip_by_head in H. discriminate H. }
  destruct (200 <? length s3)%nat eqn:Hlen.
  - repeat split.
    + intros x H. apply Hchars. eapply take_members. exact H.
    + rewrite length_take. lia.
    + intros H. apply Hdot. eapply take_head. exact H.
  - apply Nat.ltb_ge in Hlen. auto.
Qed.

(** ** The lookups are not fatal *)

Section Lookups.
Context {W : Type} (E : Env W).

(** The resolver, the cover art fetcher, the lyrics fetcher and the tag
    writer return for every behaviour of their collaborators: no exception
    leaves them. *)
Theorem lookups_never_raise w :
  (forall title artist,
      exists metadata w',
        search_itunes_metadata E title artist w = (Ret metadata, w'))
  /\ (forall artwork_url,
         exists cover w', download_cover_art E artwork_url w = (Ret cover, w'))
  /\ (forall title artist,
         exists lyrics w', get_lyrics E title artist w = (Ret lyrics, w'))
  /\ (forall mp3_path video_info metadata,
         exists w',
           add_metadata_to_mp3 E mp3_path video_info metadata w = (Ret tt, w')).
Proof.
  repeat apply conj.
  - intros. apply search_itunes_metadata_returns.
  - intros url. unfold download_cover_art, log. unfold_monad.
    destruct (truthy url); simpl; [|eauto].
    destruct (requests_get E url w) as [[r | e] w1]; [|eauto].
    destruct (Nat.eqb (status_code r) 200); eauto.
  - intros title artist. unfold get_lyrics, log. unfold_monad.
    destruct (genius E); simpl; [|eauto].
    destruct (search_song E title artist w) as [[[l|] | e] w1]; eauto.
  - intros. apply add_metadata_to_mp3_returns.
Qed.
End Lookups.

(** * Further properties *)

(** ** The sanitizer *)

Lemma run_plus cs p s pos :
  Re.run [Re.Rep true 1 p] pos s cs
  = match s with
    | c :: _ => if p c then Some ((pos + prefix_run p s)%nat, cs) else None
    | [] => None
    end.
Proof.
  cbn [Re.run].
  assert (forall u q,
             Re.rep_greedy p (fun pos' _ => Some (pos', cs)) 0 q u
             = Some ((q + prefix_run p u)%nat, cs)) as Hzero.
  { induction u as [|x u IH]; intros q; simpl.
    - rewrite Nat.add_0_r. reflexivity.
    - destruct (p x).
      + rewrite IH. f_equal. f_equal. lia.
      + rewrite Nat.add_0_r. reflexivity. }
  destruct s as [|c s]; [reflexivity|].
  simpl. destruct (p c); [|reflexivity].
  rewrite Hzero. f_equal. f_equal. lia.
Qed.

(** The substitution of line 113 replaces every stretch of white space by
    one space. *)
Lemma sub_spaces_collapse s :
  forall pos,
    Re.sub_from [Re.Rep true 1 is_space] (py " ") pos 0 s
    = collapse_from false s
    /\ Re.sub_from [Re.Rep true 1 is_space] (py " ") pos
         (prefix_run is_space s) s
       = collapse_from true s.
Proof.
  induction s as [|c s IH]; intros pos.
  - split; reflexivity.
  - assert (Re.sub_from [Re.Rep true 1 is_space] (py " ") pos 0 (c :: s)
            = collapse_from false (c :: s)) as Hzero.
    { cbn [Re.sub_from collapse_from]. rewrite run_plus.
      destruct (is_space c) eqn:Hc.
      - assert (Nat.eqb (pos + prefix_run is_space (c :: s)) pos = false)
          as ->.
        { apply Nat.eqb_neq. simpl. rewrite Hc. lia. }
        replace (pos + prefix_run is_space (c :: s) - pos - 1)%nat
          with (prefix_run is_space s) by (simpl; rewrite Hc; lia).
        rewrite (proj2 (IH (S pos))). reflexivity.
      - rewrite (proj1 (IH (S pos))). reflexivity. }
    split; [exact Hzero|].
    cbn [prefix_run]. destruct (is_space c) eqn:Hc.
    + cbn [Re.sub_from collapse_from]. rewrite Hc.
      apply (proj2 (IH (S pos))).
    + rewrite Hzero. cbn [collapse_from]. rewrite Hc. reflexivity.
Qed.

Lemma sub_spaces s :
  Re.sub [Re.Rep true 1 is_space] (py " ") s = collapse_from false s.
Proof. apply sub_spaces_collapse. Qed.

Lemma sub_class_filter p s :
  forall pos,
    Re.sub_from [Re.Cls p] [] pos 0 s = List.filter (fun c => negb (p c)) s.
Proof.
  induction s as [|c s IH]; intros pos; simpl; [reflexivity|].
  destruct (p c).
  - assert (Nat.eqb (S pos) pos = false) as -> by (apply Nat.eqb_neq; lia).
    replace (S pos - pos - 1)%nat with 0%nat by lia. apply IH.
  - simpl. rewrite IH. reflexivity.
Qed.

Lemma squeezed_from_weaken b s :
  squeezed_from b s = true -> squeezed_from false s = true.
Proof.
  destruct s as [|c s]; simpl; [auto|].
  destruct (c =? 32); [|auto]. destruct b; simpl; [discriminate | auto].
Qed.

Lemma collapse_squeezed s :
  forall b, squeezed_from b (collapse_from b s) = true.
Proof.
  induction s as [|c s IH]; intros b; simpl; [reflexivity|].
  destruct (is_space c) eqn:Hc.
  - destruct b; [apply IH|]. simpl. apply IH.
  - simpl. rewrite Hc. simpl.
    destruct (c =? 32) eqn:H32.
    + apply N.eqb_eq in H32. subst c. discriminate Hc.
    + apply IH.
Qed.

Lemma squeezed_from_app b s t :
  squeezed_from b (s ++ t) = true -> squeezed_from b s = true.
Proof.
  revert b. induction s as [|c s IH]; intros b; simpl; [reflexivity|].
  destruct (c =? 32); rewrite !andb_true_iff; intros [H1 H2]; eauto.
Qed.

Lemma squeezed_from_suffix s t :
  forall b, squeezed_from b (s ++ t) = true -> squeezed_from false t = true.
Proof.
  induction s as [|c s IH]; intros b; simpl.
  - apply squeezed_from_weaken.
  - destruct (c =? 32); rewrite !andb_true_iff; intros [H1 H2]; eauto.
Qed.

Lemma lstrip_by_suffix p s : exists t, s = t ++ lstrip_by p s.
Proof.
  induction s as [|c s [t IH]]; simpl.
  - exists []. reflexivity.
  - destruct (p c).
    + exists (c :: t). simpl. f_equal. exact IH.
    + exists []. reflexivity.
Qed.

Lemma rstrip_by_prefix p s : exists t, s = rstrip_by p s ++ t.
Proof.
  unfold rstrip_by. destruct (lstrip_by_suffix p (rev s)) as [t Ht].
  exists (rev t). rewrite <- rev_app_distr, <- Ht, rev_involutive.
  reflexivity.
Qed.

Lemma strip_by_infix p s : exists a b, s = a ++ strip_by p s ++ b.
Proof.
  unfold strip_by.
  destruct (lstrip_by_suffix p s) as [a Ha].
  destruct (rstrip_by_prefix p (lstrip_by p s)) as [b Hb].
  exists a, b. rewrite <- Hb. exact Ha.
Qed.

Lemma squeezed_strip_by p s :
  squeezed s = true -> squeezed (strip_by p s) = true.
Proof.
  unfold squeezed. intros H.
  destruct (strip_by_infix p s) as (a & b & Hs). rewrite Hs in H.
  apply squeezed_from_suffix in H. apply squeezed_from_app in H. exact H.
Qed.

Lemma squeezed_take (n : nat) (s : str) :
  squeezed s = true -> squeezed (take n s) = true.
Proof.
  unfold squeezed. intros H. rewrite <- (take_drop n s) in H.
  apply squeezed_from_app in H. exact H.
Qed.

Lemma squeezed_from_spaces b s x :
  squeezed_from b s = true -> In x s -> is_space x = true -> x = 0x20.
Proof.
  revert b. induction s as [|c s IH]; intros b; simpl; [tauto|].
  destruct (c =? 32) eqn:Hc; rewrite andb_true_iff; intros [H1 H2] [<- | Hx] Hs.
  - apply N.eqb_eq. exact Hc.
  - eauto.
  - rewrite Hs in H1. discriminate H1.
  - eauto.
Qed.

Lemma squeezed_from_no_pair b s a t :
  squeezed_from b s = true -> s <> a ++ 0x20 :: 0x20 :: t.
Proof.
  revert b a. induction s as [|c s IH]; intros b a Hsq Hs.
  - destruct a; discriminate Hs.
  - destruct a as [|a0 a]; simpl in Hs.
    + injection Hs as -> ->. simpl in Hsq.
      destruct b; simpl in Hsq; discriminate Hsq.
    + injection Hs as -> Hs. simpl in Hsq.
      destruct (a0 =? 32); apply andb_true_iff in Hsq as [_ Hsq];
        eapply IH; eauto.
Qed.

(** The sanitized name has no white space but the space character, and no
    two spaces in a row: line 113 collapses every stretch of white space and
    the later steps only cut at the ends. *)
Theorem clean_filename_collapses_white_space filename :
  (forall x,
      In x (clean_filename filename) -> is_space x = true -> x = 0x20)
  /\ (forall a b, clean_filename filename <> a ++ 0x20 :: 0x20 :: b).
Proof.
  assert (squeezed (clean_filename filename) = true) as H.
  { unfold clean_filename.
    match goal with
    | |- squeezed (if _ then take 200 ?s else ?s) = true =>
        assert (squeezed s = true) as Hs
    end.
    { unfold strip_chars, strip. apply squeezed_strip_by, squeezed_strip_by.
      rewrite sub_spaces. apply collapse_squeezed. }
    destruct (Nat.ltb 200 _); [apply squeezed_take|]; exact Hs. }
  split.
  - intros x. apply (squeezed_from_spaces _ _ _ H).
  - intros a b. apply (squeezed_from_no_pair _ _ _ _ H).
Qed.

(** The sanitizer without its regular expressions. *)
Lemma clean_filename_direct filename :
  clean_filename filename
  = let s :=
      strip_chars (py ".")
        (strip (collapse_from false
                  (List.filter (fun c => negb (forbidden c)) filename))) in
    if Nat.ltb 200 (length s) then take 200 s else s.
Proof.
  unfold clean_filename, Re.sub. rewrite sub_class_filter.
  fold (Re.sub [Re.Rep true 1 is_space] (py " ")
          (List.filter (fun c => negb (forbidden c)) filename)).
  rewrite sub_spaces. reflexivity.
Qed.

Lemma collapse_squeezed_id s :
  forall b, squeezed_from b s = true -> collapse_from b s = s.
Proof.
  induction s as [|c s IH]; intros b; simpl; [reflexivity|].
  destruct (c =? 32) eqn:H32; rewrite andb_true_iff; intros [H1 H2].
  - apply N.eqb_eq in H32. subst c. simpl.
    destruct b; [discriminate H1|]. rewrite (IH _ H2). reflexivity.
  - apply negb_true_iff in H1. rewrite H1, (IH _ H2). reflexivity.
Qed.

Lemma filter_all p (s : str) :
  forallb p s = true -> List.filter p s = s.
Proof.
  induction s as [|c s IH]; simpl; [reflexivity|].
  rewrite andb_true_iff. intros [-> H]. rewrite (IH H). reflexivity.
Qed.

Lemma strip_by_edges_free p s : edges_free p s = true -> strip_by p s = s.
Proof.
  unfold edges_free, strip_by. intros H.
  destruct s as [|c s]; [reflexivity|].
  destruct (last (c :: s)) as [d|] eqn:Hlast; simpl in H.
  - apply andb_true_iff in H as [Hc Hd].
    apply negb_true_iff in Hc, Hd. simpl. rewrite Hc.
    unfold rstrip_by.
    destruct (rev (c :: s)) as [|x r] eqn:Hrev.
    { apply (f_equal (@length _)) in Hrev. rewrite length_rev in Hrev.
      discriminate Hrev. }
    assert (x = d) as ->.
    { apply (f_equal (@rev _)) in Hrev. rewrite rev_involutive in Hrev.
      rewrite Hrev in Hlast. simpl in Hlast. rewrite last_snoc in Hlast.
      congruence. }
    simpl. rewrite Hd. rewrite <- Hrev. apply rev_involutive.
  - apply last_None in Hlast. discriminate Hlast.
Qed.

Lemma clean_filename_fixpoint filename :
  forallb (fun c => negb (forbidden c)) filename = true ->
  squeezed filename = true ->
  edges_free is_space filename = true ->
  edges_free (one_of (py ".")) filename = true ->
  (length filename <= 200)%nat ->
  clean_filename filename = filename.
Proof.
  intros Hchars Hsq Hspace Hdot Hlen.
  rewrite clean_filename_direct. cbv zeta.
  rewrite (filter_all _ _ Hchars), (collapse_squeezed_id _ _ Hsq).
  unfold strip, strip_chars.
  rewrite (strip_by_edges_free _ _ Hspace), (strip_by_edges_free _ _ Hdot).
  apply Nat.ltb_ge in Hlen. rewrite Hlen. reflexivity.
Qed.

(** A name that is clean already is left alone: with none of the nine
    characters, white space only as single spaces, no white space and no dot
    at either end and at most 200 characters, it is its own sanitized
    form. *)
Theorem clean_filename_fixes_clean_names filename :
  forallb (fun c => negb (forbidden c)) filename = true ->
  squeezed filename = true ->
  edges_free is_space filename = true ->
  edges_free (one_of (py ".")) filename = true ->
  (length filename <= 200)%nat ->
  clean_filename filename = filename.
Proof. apply clean_filename_fixpoint. Qed.

Lemma clean_filename_fixes_clean_names_witness :
  clean_filename (py "Daft Punk - One More Time.mp3")
  = py "Daft Punk - One More Time.mp3".
Proof.
  apply clean_filename_fixes_clean_names.
  - vm_compute. reflexivity.
  - vm_compute. reflexivity.
  - vm_compute. reflexivity.
  - vm_compute. reflexivity.
  - vm_compute. lia.
Defined.

Lemma clean_filename_chars filename :
  forallb (fun c => negb (forbidden c)) (clean_filename filename) = true.
Proof.
  rewrite clean_filename_direct. cbv zeta.
  apply forallb_forall. intros x Hx.
  assert (In x (List.filter (fun c => negb (forbidden c)) filename)
          \/ x = 0x20) as [H | ->]; [| | reflexivity].
  - destruct (Nat.ltb 200 _); [apply take_members in Hx|];
      apply strip_by_members, strip_by_members in Hx;
      rewrite <- sub_spaces in Hx;
      apply sub_from_members in Hx as [[<- | []] | Hx]; auto.
  - apply filter_In in H. apply H.
Qed.

Lemma clean_filename_squeezed filename :
  squeezed (clean_filename filename) = true.
Proof.
  rewrite clean_filename_direct. cbv zeta.
  match goal with
  | |- squeezed (if _ then take 200 ?s else ?s) = true =>
      assert (squeezed s = true) as Hs
  end.
  { unfold strip_chars, strip. apply squeezed_strip_by, squeezed_strip_by.
    apply collapse_squeezed. }
  destruct (Nat.ltb 200 _); [apply squeezed_take|]; exact Hs.
Qed.

Lemma clean_filename_length filename :
  (length (clean_filename filename) <= 200)%nat.
Proof.
  rewrite clean_filename_direct. cbv zeta.
  destruct (Nat.ltb 200 _) eqn:Hlen.
  - rewrite length_take. lia.
  - apply Nat.ltb_ge in Hlen. exact Hlen.
Qed.

(** A second pass of the sanitizer changes a sanitized name only when the
    first pass left white space or a dot at one of its ends. *)
Theorem clean_filename_second_pass filename :
  edges_free is_space (clean_filename filename) = true ->
  edges_free (one_of (py ".")) (clean_filename filename) = true ->
  clean_filename (clean_filename filename) = clean_filename filename.
Proof.
  intros Hspace Hdot. apply clean_filename_fixpoint.
  - apply clean_filename_chars.
  - apply clean_filename_squeezed.
  - exact Hspace.
  - exact Hdot.
  - apply clean_filename_length.
Qed.

Lemma clean_filename_second_pass_witness :
  clean_filename (clean_filename (py " <Daft   Punk>.. "))
  = clean_filename (py " <Daft   Punk>.. ").
Proof.
  apply clean_filename_second_pass; vm_compute; reflexivity.
Defined.

Lemma strip_by_keeps p s x : In x s -> p x = false -> In x (strip_by p s).
Proof.
  intros Hs Hx.
  assert (forall t, In x t -> In x (lstrip_by p t)) as Hl.
  { intros t Ht. induction t as [|c t IH]; simpl; [exact Ht|].
    destruct (p c) eqn:Hc; [|exact Ht].
    destruct Ht as [-> | Ht]; [congruence | auto]. }
  unfold strip_by, rstrip_by.
  rewrite <- in_rev. apply Hl.
  rewrite <- in_rev. apply Hl. exact Hs.
Qed.

Lemma collapse_keeps s x :
  forall b, In x s -> is_space x = false -> In x (collapse_from b s).
Proof.
  induction s as [|c s IH]; intros b; simpl; [tauto|].
  intros [<- | Hx] Hs.
  - rewrite Hs. left. reflexivity.
  - destruct (is_space c); [destruct b|]; simpl; auto.
Qed.

(** A character that is none of the nine, no white space and no dot, and
    that stands in the name, makes the sanitized name non-empty. *)
Lemma clean_filename_nonempty filename x :
  In x filename -> forbidden x = false -> is_space x = false ->
  x <> 0x2E -> clean_filename filename <> [].
Proof.
  intros Hin Hf Hs Hd. rewrite clean_filename_direct. cbv zeta.
  match goal with
  | |- (if _ then take 200 ?s else ?s) <> [] => assert (In x s) as Hx
  end.
  { apply strip_by_keeps.
    - apply strip_by_keeps; [|exact Hs].
      apply collapse_keeps; [|exact Hs].
      apply filter_In. rewrite Hf. auto.
    - simpl. rewrite orb_false_r. apply N.eqb_neq. exact Hd. }
  destruct (Nat.ltb 200 _) eqn:Hlen.
  - apply Nat.ltb_lt in Hlen. intros H.
    apply (f_equal (@length _)) in H. rewrite length_take in H.
    rewrite Nat.min_l in H by lia. discriminate H.
  - intros H. rewrite H in Hx. destruct Hx.
Qed.

(** The final name is a file name for every artist and title: it is not
    empty, holds neither a slash nor a backslash, and does not start with a
    dot, so [playlist_dir / final_name] is a file inside the playlist's
    directory. *)
Theorem final_name_is_a_file_name final_artist final_title playlist_dir :
  final_name final_artist final_title <> []
  /\ ~ In 0x2F (final_name final_artist final_title)
  /\ ~ In 0x5C (final_name final_artist final_title)
  /\ head (final_name final_artist final_title) <> Some 0x2E
  /\ path_div playlist_dir (final_name final_artist final_title)
     = path_join playlist_dir (final_name final_artist final_title).
Proof.
  assert (final_name final_artist final_title <> []) as Hne.
  { unfold final_name. apply (clean_filename_nonempty _ 0x33).
    - destruct (truthy final_artist); rewrite ?in_app_iff; simpl; auto 10.
    - reflexivity.
    - reflexivity.
    - discriminate. }
  pose proof (clean_filename_chars
                (if truthy final_artist
                 then final_artist ++ py " - " ++ final_title ++ py ".mp3"
                 else final_title ++ py ".mp3")) as Hchars.
  fold (final_name final_artist final_title) in Hchars.
  rewrite forallb_forall in Hchars.
  repeat split.
  - exact Hne.
  - intros H. apply Hchars in H. discriminate H.
  - intros H. apply Hchars in H. discriminate H.
  - unfold final_name. rewrite clean_filename_direct. cbv zeta.
    intros H.
    assert (head (strip_chars (py ".")
                    (strip (collapse_from false
                              (List.filter (fun c => negb (forbidden c))
                                 (if truthy final_artist
                                  then final_artist ++ py " - " ++ final_title
                                         ++ py ".mp3"
                                  else final_title ++ py ".mp3")))))
            = Some 0x2E) as H'.
    { destruct (Nat.ltb 200 _); [apply take_head in H|]; exact H. }
    apply strip_by_head in H'. discriminate H'.
  - unfold path_div. destruct (final_name final_artist final_title);
      [contradiction | reflexivity].
Qed.

(** ** The title parser, further *)

Lemma separator_match_none sep s :
  (forall x, In x s -> sep x = false) ->
  Re.match_ (separator_pattern sep) s = None.
Proof.
  intros Hnone.
  destruct (Re.match_ (separator_pattern sep) s) as [m|] eqn:Hm;
    [|reflexivity].
  apply separator_match_split in Hm
    as (ws & x & ws' & tail & Hs & _ & _ & _ & Hx & _).
  rewrite Hnone in Hx; [discriminate Hx|].
  rewrite Hs. rewrite !in_app_iff. right. right. left. reflexivity.
Qed.

(** A title with no dash, colon or pipe in it is not split: the artist is
    empty and the title is the whole trimmed raw title. *)
Theorem title_without_separator_is_kept raw :
  (forall x, In x raw -> is_dash x = false /\ x <> 0x3A /\ x <> 0x7C) ->
  extract_artist_title raw = ([], strip raw).
Proof.
  intros Hraw. apply extract_with_no_match.
  assert (forall x, In x (strip raw) ->
                    is_dash x = false /\ x <> 0x3A /\ x <> 0x7C) as Hs.
  { intros x Hx. apply Hraw. eapply strip_by_members. exact Hx. }
  repeat constructor; apply separator_match_none; intros x Hx;
    destruct (Hs x Hx) as (Hd & Hc & Hp).
  - exact Hd.
  - apply N.eqb_neq. congruence.
  - apply N.eqb_neq. congruence.
Qed.

Lemma title_without_separator_is_kept_witness :
  extract_artist_title (py "  Around the World (Official Video) ")
  = ([], py "Around the World (Official Video)").
Proof.
  rewrite title_without_separator_is_kept; [reflexivity|].
  intros x Hx. vm_compute in Hx.
  repeat (destruct Hx as [<- | Hx]; [repeat split; discriminate|]).
  destruct Hx.
Defined.

Lemma strip_by_cons_nonempty p c t :
  p c = false -> strip_by p (c :: t) <> [].
Proof.
  intros Hc. unfold strip_by. simpl. rewrite Hc.
  rewrite rstrip_by_cons by exact Hc. discriminate.
Qed.

Lemma first_match_split s group1 group2 :
  first_match s = Some (group1, group2) ->
  exists ws x ws' tail,
    s = group1 ++ ws ++ x :: ws' ++ group2 ++ tail
    /\ group1 <> [] /\ group2 <> []
    /\ forallb is_space ws = true /\ forallb is_space ws' = true
    /\ (is_dash x = true \/ x = 0x3A \/ x = 0x7C)
    /\ Re.at_eol tail = true.
Proof.
  unfold first_match, groups_of. intros H.
  assert (exists sep m,
             Re.match_ (separator_pattern sep) s = Some m
             /\ (Re.group m 1, Re.group m 2) = (group1, group2)
             /\ forall x, sep x = true ->
                          is_dash x = true \/ x = 0x3A \/ x = 0x7C)
    as (sep & m & Hm & Hg & Hsep).
  { destruct (Re.match_ (separator_pattern is_dash) s) as [m|] eqn:H1.
    - exists is_dash, m. simpl in H. injection H as <- <-. auto.
    - destruct (Re.match_ (separator_pattern (N.eqb 0x3A)) s) as [m|] eqn:H2.
      + exists (N.eqb 0x3A), m. simpl in H. injection H as <- <-.
        repeat split; auto. intros x Hx. apply N.eqb_eq in Hx. auto.
      + destruct (Re.match_ (separator_pattern (N.eqb 0x7C)) s) as [m|] eqn:H3;
          [|discriminate H].
        exists (N.eqb 0x7C), m. simpl in H. injection H as <- <-.
        repeat split; auto. intros x Hx. apply N.eqb_eq in Hx. auto. }
  injection Hg as <- <-.
  apply separator_match_split in Hm
    as (ws & x & ws' & tail & Hs & Hg1 & _ & Hws & Hx & Hws' & Hg2 & _ & Ht).
  exists ws, x, ws', tail. repeat split; auto.
Qed.

(** The artist is empty exactly when no separator pattern matches: a match
    always gives an artist. *)
Theorem artist_is_empty_iff_no_pattern_matches raw :
  fst (extract_artist_title raw) = [] <-> first_match (strip raw) = None.
Proof.
  rewrite extract_with_patterns.
  destruct (first_match (strip raw)) as [[group1 group2]|] eqn:Hm.
  - split; [|discriminate]. simpl. intros Hartist. exfalso.
    apply first_match_split in Hm
      as (ws & x & ws' & tail & Hs & Hg1 & _).
    destruct group1 as [|c t]; [contradiction|].
    assert (is_space c = false) as Hc.
    { apply (strip_by_head is_space raw). fold (strip raw). rewrite Hs.
      reflexivity. }
    apply (strip_by_cons_nonempty is_space c t Hc). exact Hartist.
  - split; reflexivity.
Qed.

Lemma cut_suffix_prefix o c t : exists r, t = cut_suffix o c t ++ r.
Proof.
  induction t as [|x t [r IH]]; cbn [cut_suffix].
  - exists []. destruct (opens o c []); reflexivity.
  - destruct (opens o c (x :: t)).
    + exists (x :: t). reflexivity.
    + exists r. simpl. f_equal. exact IH.
Qed.

Lemma strip_by_sublist p (s : str) : sublist (strip_by p s) s.
Proof.
  destruct (strip_by_infix p s) as (a & b & Hs). rewrite Hs at 2.
  apply sublist_inserts_l, sublist_inserts_r. reflexivity.
Qed.

Lemma sub_suffix_sublist o c (t : str) :
  is_space o = false -> sublist (Re.sub (suffix_pattern o c) [] t) t.
Proof.
  intros Ho. unfold Re.sub. rewrite sub_suffix_pattern by exact Ho.
  destruct (cut_suffix_prefix o c t) as [r Hr]. rewrite Hr at 2.
  apply sublist_inserts_r. reflexivity.
Qed.

(** The parse takes its characters from the raw title, in their order: the
    artist followed by the title is a subsequence of the raw title. *)
Theorem parse_is_a_subsequence raw :
  sublist (fst (extract_artist_title raw) ++ snd (extract_artist_title raw))
    raw.
Proof.
  rewrite extract_with_patterns.
  destruct (first_match (strip raw)) as [[group1 group2]|] eqn:Hm; simpl.
  - transitivity (strip raw); [|apply strip_by_sublist].
    apply first_match_split in Hm
      as (ws & x & ws' & tail & Hs & _).
    rewrite Hs. apply sublist_app; [apply strip_by_sublist|].
    apply sublist_inserts_l. apply sublist_cons.
    apply sublist_inserts_l. apply sublist_inserts_r.
    transitivity (Re.sub (suffix_pattern 40 41) [] (strip group2));
      [apply sub_suffix_sublist; reflexivity|].
    transitivity (strip group2);
      [apply sub_suffix_sublist; reflexivity | apply strip_by_sublist].
  - apply strip_by_sublist.
Qed.

Lemma opens_has_close o c u : opens o c u = true -> In c u.
Proof.
  intros H.
  assert (forall v, closes c v = true -> In c v) as Hclose.
  { induction v as [|y v IH]; simpl; [discriminate|].
    rewrite orb_true_iff, !andb_true_iff, N.eqb_eq.
    intros [[-> _] | [_ Hv]]; auto. }
  induction u as [|x u IH]; simpl in *; [discriminate|].
  apply orb_true_iff in H as [H | H]; apply andb_true_iff in H as [_ H];
    auto.
Qed.

Lemma cut_suffix_id o c t : ~ In c t -> cut_suffix o c t = t.
Proof.
  induction t as [|x t IH]; intros Hc; cbn [cut_suffix].
  - destruct (opens o c []); reflexivity.
  - destruct (opens o c (x :: t)) eqn:Hopen.
    + apply opens_has_close in Hopen. contradiction.
    + rewrite IH; [reflexivity|]. intros H. apply Hc. right. exact H.
Qed.

(** When the right group holds neither a closing round nor a closing square
    bracket, nothing is removed: the title is the trimmed right group. *)
Theorem title_without_closing_bracket_is_kept raw group1 group2 :
  first_match (strip raw) = Some (group1, group2) ->
  ~ In 0x29 group2 -> ~ In 0x5D group2 ->
  extract_artist_title raw = (strip group1, strip group2).
Proof.
  intros Hm Hround Hsquare. rewrite extract_with_patterns, Hm.
  unfold Re.sub. rewrite !sub_suffix_pattern by reflexivity.
  rewrite (cut_suffix_id 0x28 0x29).
  - rewrite cut_suffix_id; [reflexivity|].
    intros H. apply Hsquare. eapply strip_by_members. exact H.
  - intros H. apply Hround. eapply strip_by_members. exact H.
Qed.

Lemma title_without_closing_bracket_is_kept_witness :
  extract_artist_title (py "Daft Punk: Around [the World")
  = (py "Daft Punk", py "Around [the World").
Proof.
  rewrite (title_without_closing_bracket_is_kept _
             (py "Daft Punk") (py "Around [the World")).
  - reflexivity.
  - vm_compute. reflexivity.
  - vm_compute. intuition discriminate.
  - vm_compute. intuition discriminate.
Defined.

(** ** Completeness of the dash pattern on the plain form *)

Lemma rep_lazy_first {R} p (k : nat -> str -> option R) pre :
  forall post min pos r,
    forallb p pre = true ->
    (min <= length pre)%nat ->
    (forall m, (min <= m < length pre)%nat ->
               k (pos + m)%nat (drop m (pre ++ post)) = None) ->
    k (pos + length pre)%nat post = Some r ->
    Re.rep_lazy p k min pos (pre ++ post) = Some r.
Proof.
  induction pre as [|c pre IH]; intros post min pos r Hp Hmin Hnone Hk.
  - simpl in *. rewrite Nat.add_0_r in Hk.
    assert (min = 0%nat) as -> by lia.
    destruct post; simpl; rewrite Hk; reflexivity.
  - simpl in Hp. apply andb_true_iff in Hp as [Hc Hp].
    assert (Re.rep_lazy p k (Nat.pred min) (S pos) (pre ++ post) = Some r)
      as Hrec.
    { apply IH; [exact Hp | simpl in Hmin; lia | |].
      - intros m Hm. replace (S pos + m)%nat with (pos + S m)%nat by lia.
        apply (Hnone (S m)). simpl. lia.
      - simpl in Hk. rewrite Nat.add_succ_r in Hk. exact Hk. }
    cbn [app Re.rep_lazy]. rewrite Hc, Hrec.
    destruct min as [|min]; [|reflexivity].
    rewrite <- (Nat.add_0_r pos).
    change (c :: pre ++ post) with (drop 0 ((c :: pre) ++ post)).
    rewrite Hnone; [reflexivity | simpl; lia].
Qed.

Lemma rep_greedy_max {R} p (k : nat -> str -> option R) pre :
  forall post min pos r,
    forallb p pre = true ->
    (min <= length pre)%nat ->
    match post with c :: _ => p c = false | [] => True end ->
    k (pos + length pre)%nat post = Some r ->
    Re.rep_greedy p k min pos (pre ++ post) = Some r.
Proof.
  induction pre as [|c pre IH]; intros post min pos r Hp Hmin Hpost Hk.
  - simpl in *. rewrite Nat.add_0_r in Hk.
    assert (min = 0%nat) as -> by lia.
    destruct post as [|d post]; simpl; [exact Hk|]. rewrite Hpost. exact Hk.
  - simpl in Hp. apply andb_true_iff in Hp as [Hc Hp].
    cbn [app Re.rep_greedy]. rewrite Hc.
    rewrite (IH post (Nat.pred min) (S pos) r); auto.
    + simpl in Hmin. lia.
    + simpl in Hk. rewrite Nat.add_succ_r in Hk. exact Hk.
Qed.

Lemma rep_greedy_none {R} p (k : nat -> str -> option R) u :
  forall min pos,
    (forall m, (m <= prefix_run p u)%nat ->
               k (pos + m)%nat (drop m u) = None) ->
    Re.rep_greedy p k min pos u = None.
Proof.
  induction u as [|c u IH]; intros min pos Hnone.
  - simpl. destruct min; [|reflexivity].
    rewrite <- (Nat.add_0_r pos). apply (Hnone 0%nat). simpl. lia.
  - assert (k pos (c :: u) = None) as Hhere.
    { rewrite <- (Nat.add_0_r pos). apply (Hnone 0%nat). lia. }
    cbn [Re.rep_greedy]. simpl in Hnone.
    destruct (p c).
    + rewrite IH.
      * destruct min; [exact Hhere | reflexivity].
      * intros m Hm. replace (S pos + m)%nat with (pos + S m)%nat by lia.
        apply (Hnone (S m)). lia.
    + destruct min; [exact Hhere | reflexivity].
Qed.

Lemma prefix_run_before_last p (t : str) c :
  last t = Some c -> p c = false -> (prefix_run p t < length t)%nat.
Proof.
  induction t as [|x t IH]; [discriminate|].
  intros Hlast Hc. simpl. destruct (p x) eqn:Hx; [|lia].
  destruct t as [|y t].
  - simpl in Hlast. congruence.
  - apply -> Nat.succ_lt_mono. apply IH; [exact Hlast | exact Hc].
Qed.

Lemma last_drop (t : str) (m : nat) c :
  (m < length t)%nat -> last t = Some c -> last (drop m t) = Some c.
Proof.
  revert m. induction t as [|x t IH]; intros m Hm Hlast; [discriminate|].
  destruct m as [|m]; [exact Hlast|]. simpl in *.
  destruct t as [|y t]; [simpl in Hm; lia|].
  apply IH; [simpl in Hm |- *; lia | exact Hlast].
Qed.

Section Plain.
Variable sep : char -> bool.
Hypothesis sep_no_space : forall c, is_space c = true -> sep c = false.

Variables artist title ws ws' : str.
Variable x : char.
Hypothesis artist_dot : forallb dot artist = true.
Hypothesis title_dot : forallb dot title = true.
Hypothesis artist_no_sep : forall c, In c artist -> sep c = false.
Hypothesis sep_x : sep x = true.
Hypothesis ws_space : forallb is_space ws = true.
Hypothesis ws'_space : forallb is_space ws' = true.

Variables a_last t_first : char.
Variable title' : str.
Hypothesis artist_last : last artist = Some a_last.
Hypothesis a_last_no_space : is_space a_last = false.
Hypothesis title_first : title = t_first :: title'.
Hypothesis t_first_no_space : is_space t_first = false.

Lemma x_no_space : is_space x = false.
Proof.
  destruct (is_space x) eqn:Hx; [|reflexivity].
  apply sep_no_space in Hx. congruence.
Qed.

(** From the end of the artist on, the rest of the pattern matches. *)
Lemma plain_rest_matches cs pos :
  Re.run [Re.Rep true 0 is_space; Re.Cls sep; Re.Rep true 0 is_space;
          Re.Open 2; Re.Rep true 1 dot; Re.Close 2; Re.Eol]
    pos (ws ++ x :: ws' ++ title) cs
  = Some ((pos + length ws + 1 + length ws' + length title)%nat,
          Re.close_group 2 (pos + length ws + 1 + length ws' + length title)
            (Re.open_group 2 (pos + length ws + 1 + length ws') cs)).
Proof.
  rewrite run_greedy.
  apply rep_greedy_max; [exact ws_space | lia | apply x_no_space |].
  rewrite run_cls, sep_x, run_greedy.
  apply rep_greedy_max; [exact ws'_space | lia | |].
  { rewrite title_first. exact t_first_no_space. }
  cbn [Re.run].
  replace title with (title ++ []) at 1 by apply app_nil_r.
  apply rep_greedy_max; [exact title_dot | | exact I |].
  { rewrite title_first. simpl. lia. }
  cbn [Re.run Re.at_eol].
  replace (S (pos + length ws) + length ws')%nat
    with (pos + length ws + 1 + length ws')%nat by lia.
  reflexivity.
Qed.

(** Inside the artist the rest of the pattern does not match: after any
    white space there comes a character of the artist, which is no
    separator. *)
Lemma plain_rest_fails cs m rest :
  (m < length artist)%nat ->
  Re.run [Re.Close 1; Re.Rep true 0 is_space; Re.Cls sep;
          Re.Rep true 0 is_space; Re.Open 2; Re.Rep true 1 dot; Re.Close 2;
          Re.Eol]
    m (drop m (artist ++ rest)) cs
  = None.
Proof.
  intros Hm. cbn [Re.run]. fold (Re.run [Re.Cls sep; Re.Rep true 0 is_space;
          Re.Open 2; Re.Rep true 1 dot; Re.Close 2; Re.Eol]).
  rewrite drop_app_le by lia.
  set (u := drop m artist).
  assert (prefix_run is_space u < length u)%nat as Hrun.
  { apply (prefix_run_before_last is_space u a_last).
    - apply last_drop; assumption.
    - exact a_last_no_space. }
  apply rep_greedy_none. intros j Hj.
  assert (prefix_run is_space (u ++ rest) = prefix_run is_space u) as Hsame.
  { clear -Hrun. induction u as [|c u IH]; simpl in *; [lia|].
    destruct (is_space c); [|reflexivity]. rewrite IH; [reflexivity | lia]. }
  rewrite Hsame in Hj.
  rewrite drop_app_le by lia.
  destruct (drop j u) as [|c v] eqn:Hdrop.
  { apply (f_equal (@length _)) in Hdrop. rewrite length_drop in Hdrop.
    simpl in Hdrop. lia. }
  assert (sep c = false) as Hc.
  { apply artist_no_sep.
    assert (In c (drop j u)) as Hin by (rewrite Hdrop; left; reflexivity).
    apply list_elem_of_In in Hin.
    apply list_elem_of_In.
    apply (subseteq_drop m artist). apply (subseteq_drop j u). exact Hin. }
  cbn [app]. cbn [Re.run]. rewrite Hc. reflexivity.
Qed.

Lemma plain_run :
  artist <> [] ->
  Re.run (separator_pattern sep) 0 (artist ++ ws ++ x :: ws' ++ title)
    Re.no_caps
  = Some ((0 + length artist + length ws + 1 + length ws' + length title)%nat,
          Re.close_group 2
            (0 + length artist + length ws + 1 + length ws' + length title)
            (Re.open_group 2 (0 + length artist + length ws + 1 + length ws')
               (Re.close_group 1 (0 + length artist)
                  (Re.open_group 1 0 Re.no_caps)))).
Proof.
  intros Hartist. unfold separator_pattern. cbn [Re.run Nat.eqb].
  apply rep_lazy_first.
  - exact artist_dot.
  - destruct artist; [contradiction | simpl; lia].
  - intros m Hm. apply plain_rest_fails. lia.
  - cbn [Re.run]. apply plain_rest_matches.
Qed.

Lemma plain_match :
  artist <> [] ->
  exists m,
    Re.match_ (separator_pattern sep) (artist ++ ws ++ x :: ws' ++ title)
    = Some m
    /\ Re.group m 1 = artist /\ Re.group m 2 = title.
Proof.
  intros Hartist. unfold Re.match_. rewrite plain_run by exact Hartist.
  eexists. split; [reflexivity|]. split.
  - unfold Re.group. simpl.
    rewrite Nat.sub_0_r. apply take_app_length.
  - unfold Re.group. cbn -[take drop Nat.sub Nat.add].
    replace (0 + length artist + length ws + 1 + length ws' + length title
             - (0 + length artist + length ws + 1 + length ws'))%nat
      with (length title) by lia.
    replace (artist ++ ws ++ x :: ws' ++ title)
      with ((artist ++ ws ++ x :: ws') ++ title ++ [])
      by (rewrite app_nil_r, <- !app_assoc; reflexivity).
    replace (0 + length artist + length ws + 1 + length ws')%nat
      with (length (artist ++ ws ++ x :: ws'))
      by (rewrite !length_app; simpl; lia).
    rewrite drop_app_length, take_app_length. reflexivity.
Qed.
End Plain.

Lemma is_dash_no_space c : is_space c = true -> is_dash c = false.
Proof.
  intros Hc. destruct (is_dash c) eqn:Hd; [|reflexivity].
  unfold is_dash, one_of in Hd. cbn [existsb] in Hd.
  rewrite !orb_true_iff, !N.eqb_eq in Hd.
  destruct Hd as [-> | [-> | [-> | Hd]]]; discriminate.
Qed.

Lemma edges_free_ends p (s : str) :
  s <> [] -> edges_free p s = true ->
  exists a s' b, s = a :: s' /\ p a = false /\ last s = Some b /\ p b = false.
Proof.
  intros Hs H. destruct s as [|a s']; [contradiction|].
  unfold edges_free in H. cbn [head] in H.
  destruct (last (a :: s')) as [b|] eqn:Hlast.
  - apply andb_true_iff in H as [Ha Hb]. apply negb_true_iff in Ha, Hb.
    exists a, s', b. auto.
  - apply last_None in Hlast. discriminate.
Qed.

Lemma edges_free_outer p (s t mid : str) :
  s <> [] -> t <> [] -> edges_free p s = true -> edges_free p t = true ->
  edges_free p (s ++ mid ++ t) = true.
Proof.
  intros Hs Ht Hes Het.
  destruct (edges_free_ends p s Hs Hes) as (a & s' & _ & -> & Ha & _).
  destruct (edges_free_ends p t Ht Het) as (_ & _ & b & _ & _ & Hlast & Hb).
  unfold edges_free. cbn [app head].
  change (a :: s' ++ mid ++ t) with ((a :: s') ++ mid ++ t).
  rewrite !last_app, Hlast, Ha, Hb. reflexivity.
Qed.

(** A title of the plain form, artist, dash, title, is split into exactly
    these two parts: for an artist and a title without line feed and without
    white space at their edges, an artist without dash and a title without
    closing bracket, joined by a dash with any white space around it,
    [extract_artist_title] returns the artist and the title.  The title may
    hold further dashes: the split is at the first one. *)
Theorem dash_title_round_trip artist title ws ws' x :
  artist <> [] -> title <> [] ->
  forallb dot artist = true -> forallb dot title = true ->
  edges_free is_space artist = true -> edges_free is_space title = true ->
  (forall c, In c artist -> is_dash c = false) ->
  ~ In 0x29 title -> ~ In 0x5D title ->
  is_dash x = true ->
  forallb is_space ws = true -> forallb is_space ws' = true ->
  extract_artist_title (artist ++ ws ++ x :: ws' ++ title) = (artist, title).
Proof.
  intros Ha Ht Hda Hdt Hea Het Hnodash Hround Hsquare Hx Hws Hws'.
  destruct (edges_free_ends _ _ Ha Hea) as (_ & _ & a_last & _ & _ & Hl & Hal).
  destruct (edges_free_ends _ _ Ht Het) as (t_first & title' & _ & Htf & Hts & _).
  destruct (plain_match is_dash is_dash_no_space artist title ws ws' x
              Hda Hdt Hnodash Hx Hws Hws' a_last t_first title'
              Hl Hal Htf Hts Ha) as (m & Hm & Hg1 & Hg2).
  rewrite extract_with_patterns.
  assert (strip (artist ++ ws ++ x :: ws' ++ title)
          = artist ++ ws ++ x :: ws' ++ title) as ->.
  { apply strip_by_edges_free.
    change (ws ++ x :: ws' ++ title) with (ws ++ (x :: ws') ++ title).
    rewrite (app_assoc ws). apply edges_free_outer; assumption. }
  unfold first_match, groups_of. rewrite Hm. cbn [fmap option_fmap option_map].
  rewrite Hg1, Hg2.
  unfold strip. rewrite !strip_by_edges_free by assumption.
  unfold Re.sub. rewrite !sub_suffix_pattern by reflexivity.
  rewrite (cut_suffix_id 0x28 0x29) by exact Hround.
  rewrite cut_suffix_id by exact Hsquare. reflexivity.
Qed.

Lemma dash_title_round_trip_witness :
  extract_artist_title (py "Daft Punk: Live  -  One More Time - Remix")
  = (py "Daft Punk: Live", py "One More Time - Remix").
Proof.
  apply (dash_title_round_trip (py "Daft Punk: Live")
           (py "One More Time - Remix") (py "  ") (py "  ") 0x2D);
    try reflexivity; try discriminate.
  - intros c Hc. vm_compute in Hc.
    repeat (destruct Hc as [<- | Hc]; [reflexivity|]). destruct Hc.
  - intros Hc. vm_compute in Hc.
    repeat (destruct Hc as [Hc | Hc]; [discriminate Hc|]). destruct Hc.
  - intros Hc. vm_compute in Hc.
    repeat (destruct Hc as [Hc | Hc]; [discriminate Hc|]). destruct Hc.
Defined.

(** ** The search term and the attachments *)

Lemma sub_class_members p repl rest :
  forall pos x,
    In x (Re.sub_from [Re.Cls p] repl pos 0 rest) ->
    In x repl \/ (In x rest /\ p x = false).
Proof.
  induction rest as [|c rest IH]; intros pos x; simpl; [tauto|].
  destruct (p c) eqn:Hc.
  - assert (Nat.eqb (S pos) pos = false) as -> by (apply Nat.eqb_neq; lia).
    replace (S pos - pos - 1)%nat with 0%nat by lia.
    rewrite in_app_iff. intros [H | H]; [auto|].
    apply IH in H. tauto.
  - simpl. intros [<- | H]; [auto|]. apply IH in H. tauto.
Qed.

Lemma collapse_members s x :
  forall b, In x (collapse_from b s) ->
            x = 0x20 \/ (In x s /\ is_space x = false).
Proof.
  induction s as [|c s IH]; intros b; simpl; [tauto|].
  destruct (is_space c) eqn:Hc.
  - destruct b; simpl; intros H.
    + apply IH in H. tauto.
    + destruct H as [<- | H]; [auto|]. apply IH in H. tauto.
  - simpl. intros [<- | H]; [auto|]. apply IH in H. tauto.
Qed.

Lemma lstrip_by_head_free p s c :
  head (lstrip_by p s) = Some c -> p c = false.
Proof.
  induction s as [|x s IH]; simpl; [discriminate|].
  destruct (p x) eqn:Hx; [exact IH|].
  simpl. intros [= <-]. exact Hx.
Qed.

Lemma last_rev_head (l : str) : last (rev l) = head l.
Proof. rewrite rev_alt. apply (last_reverse l). Qed.

Lemma strip_by_is_edges_free p s : edges_free p (strip_by p s) = true.
Proof.
  unfold edges_free.
  destruct (head (strip_by p s)) as [a|] eqn:Hhead; [|reflexivity].
  destruct (last (strip_by p s)) as [b|] eqn:Hlast; [|reflexivity].
  apply strip_by_head in Hhead.
  unfold strip_by, rstrip_by in Hlast. rewrite last_rev_head in Hlast.
  apply lstrip_by_head_free in Hlast.
  rewrite Hhead, Hlast. reflexivity.
Qed.

Section Term.
Context {W : Type} (E : Env W).

(** The term sent to the catalog is normalized: it holds word characters
    and single space characters only, and neither begins nor ends with white
    space, whatever the title and the artist are. *)
Theorem search_term_is_normalized title artist :
  (forall x, In x (search_term E title artist) ->
             is_word E x = true \/ x = 0x20)
  /\ (forall a b, search_term E title artist <> a ++ 0x20 :: 0x20 :: b)
  /\ edges_free is_space (search_term E title artist) = true.
Proof.
  unfold search_term. rewrite sub_spaces. repeat apply conj.
  - intros x Hx. apply strip_by_members in Hx.
    apply collapse_members in Hx as [-> | [Hx Hspace]]; [auto|].
    apply sub_class_members in Hx as [Hx | [_ Hx]].
    + right. destruct Hx as [<- | []]. reflexivity.
    + left. apply negb_false_iff, orb_true_iff in Hx as [Hx | Hx];
        [exact Hx | congruence].
  - intros a b. apply (squeezed_from_no_pair false).
    apply squeezed_strip_by, collapse_squeezed.
  - apply strip_by_is_edges_free.
Qed.

Lemma download_cover_art_some url data w w' :
  download_cover_art E url w = (Ret (Some data), w') ->
  url <> []
  /\ exists r, requests_get E url w = (Ret r, w')
               /\ status_code r = 200%nat /\ content r = data.
Proof.
  unfold download_cover_art, log. unfold_monad.
  destruct url as [|c url]; simpl; [discriminate|].
  destruct (requests_get E (c :: url) w) as [[r | e] w1]; [|discriminate].
  destruct (Nat.eqb (status_code r) 200) eqn:Hs; [|discriminate].
  intros [= <- <-]. split; [discriminate|].
  exists r. apply Nat.eqb_eq in Hs. auto.
Qed.

Lemma get_lyrics_some title artist lyrics w w' :
  get_lyrics E title artist w = (Ret (Some lyrics), w') ->
  genius E = true /\ search_song E title artist w = (Ret (Some lyrics), w').
Proof.
  unfold get_lyrics, log. unfold_monad.
  destruct (genius E); simpl; [|discriminate].
  destruct (search_song E title artist w) as [[[l|] | e] w1];
    try discriminate.
  intros [= <- <-]. auto.
Qed.

(** A tag write that completes has added the basic frames, then at most
    one picture, then at most one lyrics frame.  The picture is the
    non-empty body of a response with status 200 to a GET of the merged
    artwork URL; the lyrics are the non-empty text that the lyrics client,
    set up, found for the merged title and artist, both non-empty. *)
Theorem attachments_come_from_lookups mp3_path video_info metadata w tags w' :
  write_tags E mp3_path video_info metadata w = (Ret tags, w') ->
  exists pic lyr,
    tags = basic_frames (tag_record video_info metadata) ++ pic ++ lyr
    /\ (pic = [] \/ exists f, pic = [f]
                              /\ picture_of E (tag_record video_info metadata) f)
    /\ (lyr = [] \/ exists f, lyr = [f]
                              /\ lyrics_of E (tag_record video_info metadata) f).
Proof.
  unfold write_tags, tag_record, basic_frames.
  destruct (extract_artist_title _) as [artist title].
  set (t := merge_tags artist title metadata). intros H.
  apply bind_returns in H as (? & w0 & _ & H).
  apply bind_returns in H as (t1 & w1 & H1 & H). apply add_returns in H1.
  apply bind_returns in H as (t2 & w2 & H2 & H). apply add_if_returns in H2.
  apply bind_returns in H as (t3 & w3 & H3 & H). apply add_if_returns in H3.
  apply bind_returns in H as (t4 & w4 & H4 & H). apply add_if_returns in H4.
  apply bind_returns in H as (t5 & w5 & H5 & H). apply add_if_returns in H5.
  apply bind_returns in H as (t6 & w6 & H6 & H).
  apply bind_returns in H as (t7 & w7 & H7 & H).
  apply bind_returns in H as (? & w8 & _ & H).
  apply bind_returns in H as (? & w9 & _ & H).
  apply mret_returns in H. subst tags.
  assert (exists pic, t6 = t5 ++ pic
                      /\ (pic = [] \/ exists f, pic = [f] /\ picture_of E t f))
    as (pic & -> & Hpic).
  { destruct (truthy (m_artwork_url t)) eqn:Hurl.
    - apply bind_returns in H6 as (cover & wc & Hcover & H6).
      destruct cover as [[|b data]|].
      + apply mret_returns in H6. exists []. rewrite app_nil_r. auto.
      + apply add_returns in H6.
        apply download_cover_art_some in Hcover as (Hne & r & Hget & Hs & Hc).
        exists [APIC (py "image/jpeg") 3 (py "Cover") (b :: data)].
        split; [exact H6|]. right. eexists. split; [reflexivity|].
        exists (b :: data), r, w5, wc.
        split; [reflexivity|]. split; [discriminate|]. auto.
      + apply mret_returns in H6. exists []. rewrite app_nil_r. auto.
    - apply mret_returns in H6. exists []. rewrite app_nil_r. auto. }
  assert (exists lyr, t7 = (t5 ++ pic) ++ lyr
                      /\ (lyr = [] \/ exists f, lyr = [f] /\ lyrics_of E t f))
    as (lyr & -> & Hlyr).
  { destruct (genius E && truthy (m_artist t) && truthy (m_title t))
      eqn:Hcond.
    - apply bind_returns in H7 as (lyrics & wl & Hlyrics & H7).
      destruct lyrics as [[|c lyrics]|].
      + apply mret_returns in H7. exists []. rewrite app_nil_r. auto.
      + apply add_returns in H7.
        apply get_lyrics_some in Hlyrics as (Hg & Hsong).
        apply andb_true_iff in Hcond as [Hcond Htitle].
        apply andb_true_iff in Hcond as [_ Hartist].
        exists [USLT (py "eng") (py "Lyrics") (c :: lyrics)].
        split; [exact H7|]. right. eexists. split; [reflexivity|].
        exists (c :: lyrics), w6, wl.
        split; [reflexivity|]. split; [discriminate|]. split; [exact Hg|].
        split; [intros Heq; rewrite Heq in Hartist; discriminate|].
        split; [intros Heq; rewrite Heq in Htitle; discriminate|].
        exact Hsong.
      + apply mret_returns in H7. exists []. rewrite app_nil_r. auto.
    - apply mret_returns in H7. exists []. rewrite app_nil_r. auto. }
  exists pic, lyr. subst. split; [|auto].
  simpl. rewrite <- !app_assoc. reflexivity.
Qed.

End Term.

(** ** More on the loop *)

Section Entries.
Context {W : Type} (E : Env W) (temp_dir : path).

(** An entry is counted as a success only after its file was fetched, found
    to exist, looked up, tagged and moved under the final name into the
    playlist directory: a pass that leaves one success more went through
    each of these steps, and the move did not raise. *)
Theorem success_needs_fetch_and_move playlist_dir n i video s f w w' :
  process_entry E temp_dir playlist_dir n i video (s, f) w
  = (Ret (S s, f), w') ->
  exists audio w1 w2 metadata w3 w4 w5,
    let parsed := extract_artist_title (reported_title i video) in
    let name := merge_name (fst parsed) (snd parsed) metadata in
    download_audio E video temp_dir (fetch_world E n i video w)
    = (Ret (Some audio), w1)
    /\ path_exists E audio w1 = (Ret true, w2)
    /\ search_itunes_metadata E (snd parsed) (fst parsed) w2
       = (Ret metadata, w3)
    /\ add_metadata_to_mp3 E audio video metadata w3 = (Ret tt, w4)
    /\ shutil_move E audio
         (path_join playlist_dir (final_name (fst name) (snd name))) w4
       = (Ret tt, w5).
Proof.
  unfold process_entry, log, sleep, fetch_world.
  unfold_monad. cbv beta iota zeta.
  destruct (download_audio E video temp_dir _) as [[[audio|] | e] w1]
    eqn:Hfetch; [| intros [= Hs _]; lia | intros [= Hs _]; lia].
  destruct (path_exists E audio w1) as [[[|] | e] w2] eqn:Hexists; simpl;
    [| intros [= Hs _]; lia | intros [= Hs _]; lia].
  destruct (extract_artist_title _) as [artist title]. simpl.
  destruct (search_itunes_metadata E title artist w2)
    as [[metadata | e] w3] eqn:Hsearch; [| intros [= Hs _]; lia].
  destruct (add_metadata_to_mp3 E audio video metadata w3)
    as [[[] | e] w4] eqn:Hadd; [| intros [= Hs _]; lia].
  destruct (merge_name artist title metadata)
    as [final_artist final_title] eqn:Hname.
  simpl.
  destruct (shutil_move E audio _ w4) as [[[] | e] w5] eqn:Hmove;
    [| intros [= Hs _]; lia].
  intros _. exists audio, w1, w2, metadata, w3, w4, w5.
  rewrite Hname. simpl. auto.
Qed.

(** A move that raises makes the entry a failure, although the file was
    fetched and tagged: the exception is logged as an error under the
    entry's title, the title joins the failures, the count of successes
    stays, and the pass returns. *)
Theorem failed_move_is_a_failure playlist_dir n i video s f w
    audio w1 w2 artist title metadata w3 w4 final_artist final_title e w5 :
  download_audio E video temp_dir (fetch_world E n i video w)
  = (Ret (Some audio), w1) ->
  path_exists E audio w1 = (Ret true, w2) ->
  extract_artist_title (reported_title i video) = (artist, title) ->
  search_itunes_metadata E title artist w2 = (Ret metadata, w3) ->
  add_metadata_to_mp3 E audio video metadata w3 = (Ret tt, w4) ->
  merge_name artist title metadata = (final_artist, final_title) ->
  shutil_move E audio
    (path_join playlist_dir (final_name final_artist final_title)) w4
  = (Raise e, w5) ->
  process_entry E temp_dir playlist_dir n i video (s, f) w
  = (Ret (s, f ++ [reported_title i video]),
     logger E ERROR
       ([0x274C] ++ py " Failed to process " ++ reported_title i video
          ++ py ": " ++ message e) w5).
Proof.
  intros Hfetch Hexists Hparse Hsearch Hadd Hname Hmove.
  unfold process_entry, log, sleep. unfold_monad. cbv beta iota zeta.
  unfold fetch_world in Hfetch. rewrite Hfetch, Hexists. simpl.
  rewrite Hparse, Hsearch, Hadd, Hname. simpl in Hmove |- *.
  rewrite Hmove. reflexivity.
Qed.

Lemma process_entries_failures playlist_dir n videos :
  forall i s f w,
  exists s' l w',
    process_entries E temp_dir playlist_dir n i videos (s, f) w
    = (Ret (s', f ++ l), w')
    /\ sublist l (titles_from i videos)
    /\ (s' + length l = s + length (titles_from i videos))%nat.
Proof.
  induction videos as [|video videos IH]; intros i s f w.
  - exists s, [], w. rewrite app_nil_r. split; [reflexivity|].
    split; [constructor | simpl; lia].
  - rewrite process_entries_cons. cbn [titles_from].
    destruct (opt_truthy video) eqn:Hv; unfold negb; cbv beta iota.
    + unfold_monad.
      destruct (process_entry_one_outcome E temp_dir playlist_dir n i
                  (default ∅ video) (s, f) w) as ([s1 f1] & w1 & -> & Hone).
      destruct (IH (S i) s1 f1 w1) as (s' & l & w' & -> & Hsub & Hsum).
      destruct Hone as [Hone | Hone]; simpl in Hone; inversion Hone; subst.
      * exists s', l, w'. split; [reflexivity|].
        split; [apply sublist_cons; exact Hsub | simpl; lia].
      * exists s', (reported_title i (default ∅ video) :: l), w'.
        rewrite <- app_assoc. split; [reflexivity|].
        split; [apply sublist_skip; exact Hsub | simpl; lia].
    + destruct (IH (S i) s f w) as (s' & l & w' & -> & Hsub & Hsum).
      exists s', l, w'. auto.
Qed.

(** The failures of a run are titles of the playlist, in playlist order:
    the list of failures is a subsequence of the reported titles of the
    available entries, and every available entry that is not in it is
    counted as a success. *)
Theorem failures_in_playlist_order playlist_dir videos w :
  exists successful failed w',
    process_playlist_loop E temp_dir playlist_dir videos w
    = (Ret (successful, failed), w')
    /\ sublist failed (titles_from 1 videos)
    /\ (successful + length failed = length (titles_from 1 videos))%nat.
Proof.
  unfold process_playlist_loop.
  destruct (process_entries_failures playlist_dir (length videos) videos
              1%nat 0%nat [] w) as (s & l & w' & Hrun & Hsub & Hsum).
  exists s, l, w'. simpl in Hrun, Hsum. auto.
Qed.

Lemma process_entry_without_file playlist_dir n i video s f w :
  (forall video w audio w',
      download_audio E video temp_dir w <> (Ret (Some audio), w')) ->
  exists w',
    process_entry E temp_dir playlist_dir n i video (s, f) w
    = (Ret (s, f ++ [reported_title i video]), w').
Proof.
  intros Hnone.
  unfold process_entry, log, sleep. unfold_monad. cbv beta iota zeta.
  set (w0 := logger E INFO _ w).
  destruct (download_audio E video temp_dir w0) as [[[audio|] | e] w1]
    eqn:Hfetch; [| eauto | eauto].
  apply Hnone in Hfetch. destruct Hfetch.
Qed.

(** Without a fetched file nothing is counted as a success: when the media
    fetcher never delivers a file, the run ends with no success and with
    every available entry among the failures, in playlist order. *)
Theorem nothing_fetched_nothing_counted playlist_dir videos w :
  (forall video w audio w',
      download_audio E video temp_dir w <> (Ret (Some audio), w')) ->
  exists w',
    process_playlist_loop E temp_dir playlist_dir videos w
    = (Ret (0%nat, titles_from 1 videos), w').
Proof.
  intros Hnone. unfold process_playlist_loop.
  generalize (length videos) as n. generalize 1%nat as i.
  assert (forall i n f w,
             exists w',
               process_entries E temp_dir playlist_dir n i videos
                 (0%nat, f) w
               = (Ret (0%nat, f ++ titles_from i videos), w')) as Hall.
  { induction videos as [|video videos IH]; intros i n f w0.
    - exists w0. simpl. rewrite app_nil_r. reflexivity.
    - rewrite process_entries_cons. cbn [titles_from].
      destruct (opt_truthy video); unfold negb; cbv beta iota.
      + unfold_monad.
        destruct (process_entry_without_file playlist_dir n i
                    (default ∅ video) 0%nat f w0 Hnone) as (w1 & ->).
        destruct (IH (S i) n (f ++ [reported_title i (default ∅ video)]) w1)
          as (w' & ->).
        exists w'. rewrite <- app_assoc. reflexivity.
      + apply IH. }
  intros i n. apply (Hall i n [] w).
Qed.
End Entries.

(** ** The media fetcher and the whole of [process_playlist] *)

Section Program.
Context {W : Type} (E : Env W) (H : Host W).

Lemma try_except_returns {A} (m : M W A) (h : exn -> M W A) w :
  (forall e w1, exists a w', h e w1 = (Ret a, w')) ->
  exists a w', try_except m h w = (Ret a, w').
Proof.
  intros Hh. unfold try_except.
  destruct (m w) as [[a | e] w1]; [eauto | apply Hh].
Qed.

(** An exception leaves the media fetcher only for an entry with neither a
    non-empty [webpage_url] nor an [id]: it is the error of reading the
    unbound [title] in the handler, and by then nothing was logged or
    fetched.  With a URL at hand every exception is caught. *)
Theorem fetcher_raises_only_without_url video_info output_path w e w' :
  Fetcher.download_audio E H video_info output_path w = (Raise e, w') ->
  get_truthy video_info "webpage_url" = false
  /\ video_info !! "id" = None
  /\ e = unbound_local H /\ w' = w.
Proof.
  unfold Fetcher.download_audio, Fetcher.video_url.
  destruct (get_truthy video_info "webpage_url").
  - intros Hraise. exfalso.
    edestruct (try_except_returns (A := option path)) as (a & w1 & Hret);
      [|rewrite Hret in Hraise; discriminate Hraise].
    intros e1 w1. unfold log. unfold_monad. eauto.
  - destruct (video_info !! "id") as [id|]; simpl.
    + intros Hraise. exfalso.
      edestruct (try_except_returns (A := option path)) as (a & w1 & Hret);
        [|rewrite Hret in Hraise; discriminate Hraise].
      intros e1 w1. unfold log. unfold_monad. eauto.
    + unfold raise. intros [= <- <-]. auto.
Qed.

(** Under the program's own fetcher, an entry with neither a non-empty
    [webpage_url] nor an [id] is recorded as a failure: the pass logs the
    error under the entry's title and returns, so the run goes on. *)
Theorem entry_without_url_is_failure temp_dir playlist_dir n i video s f w :
  get_truthy video "webpage_url" = false ->
  video !! "id" = None ->
  process_entry (program_env E H) temp_dir playlist_dir n i video (s, f) w
  = (Ret (s, f ++ [reported_title i video]),
     logger E ERROR
       ([0x274C] ++ py " Failed to process " ++ reported_title i video
          ++ py ": " ++ message (unbound_local H))
       (fetch_world E n i video w)).
Proof.
  intros Hurl Hid.
  unfold process_entry, log, fetch_world. unfold_monad. cbv beta iota zeta.
  cbn [download_audio logger program_env].
  unfold Fetcher.download_audio, Fetcher.video_url.
  rewrite Hurl, Hid. reflexivity.
Qed.

Lemma max_by_ctime_member files :
  forall best key w newest w',
    Fetcher.max_by_ctime H best key files w = (Ret newest, w') ->
    newest = best \/ In newest files.
Proof.
  induction files as [|file files IH]; intros best key w newest w'; simpl.
  - unfold_monad. intros [= <- _]. auto.
  - unfold_monad.
    destruct (getctime H file w) as [[k | e] w1]; [|discriminate].
    destruct (key <? k); intros Hrun; apply IH in Hrun as [-> | Hin]; auto.
Qed.

(** The file the fetcher returns is one that the directory listing showed:
    it stands in the result of a scan of the output directory for MP3
    files. *)
Theorem fetched_file_was_listed video_info output_path w file w' :
  Fetcher.download_audio E H video_info output_path w
  = (Ret (Some file), w') ->
  exists w1 files w2,
    glob H output_path "*.mp3" w1 = (Ret files, w2) /\ In file files.
Proof.
  unfold Fetcher.download_audio.
  destruct (Fetcher.video_url video_info) as [url|]; [|discriminate].
  unfold log. unfold_monad.
  set (w0 := logger E INFO _ w).
  destruct (ydl_download H _ url w0) as [[[] | e] w1]; [|discriminate].
  destruct (glob H output_path "*.mp3" w1) as [[files | e] w2] eqn:Hglob;
    [|discriminate].
  destruct (find _ files) as [found|] eqn:Hfind.
  - intros [= <- _]. exists w1, files, w2. split; [exact Hglob|].
    apply find_some in Hfind. tauto.
  - destruct (glob H output_path "*.mp3" w2) as [[mp3_files | e] w3]
      eqn:Hglob2; [|discriminate].
    destruct mp3_files as [|first mp3_files]; [discriminate|].
    destruct (getctime H first w3) as [[key | e] w4]; [|discriminate].
    destruct (Fetcher.max_by_ctime H first key mp3_files w4)
      as [[newest | e] w5] eqn:Hmax; [|discriminate].
    intros [= <- _]. exists w2, (first :: mp3_files), w3.
    split; [exact Hglob2|].
    apply max_by_ctime_member in Hmax as [-> | Hin];
      [left; reflexivity | right; exact Hin].
Qed.

Context (output_dir : path).

(** When the extraction of the playlist raises, [process_playlist] raises
    the same exception: it was logged twice, once by each handler, and
    nothing else was done. *)
Theorem extraction_failure_is_raised_again playlist_url custom_name w e w1 :
  ydl_extract_info H playlist_url
    (logger E INFO (py "Extracting playlist info from: " ++ playlist_url) w)
  = (Raise e, w1) ->
  process_playlist E H output_dir playlist_url custom_name w
  = (Raise e,
     logger E ERROR (py "Failed to process playlist: " ++ message e)
       (logger E ERROR (py "Failed to extract playlist info: " ++ message e)
          w1)).
Proof.
  intros Hraise.
  unfold process_playlist, extract_playlist_info, log. unfold_monad.
  rewrite Hraise. reflexivity.
Qed.

Lemma cleanup_returns files :
  forall w,
  exists w',
    for_each files
      (fun temp_file => try_except (unlink H temp_file) (fun _ => mret tt)) w
    = (Ret tt, w').
Proof.
  induction files as [|file files IH]; intros w; simpl.
  - unfold_monad. eauto.
  - unfold_monad. destruct (unlink H file w) as [[[] | e] w1]; apply IH.
Qed.

Lemma report_failures_returns failed w :
  exists w', report_failures E failed w = (Ret tt, w').
Proof.
  unfold report_failures, log.
  destruct (Nat.ltb 0 (length failed)); [|unfold_monad; eauto].
  assert (forall l w0,
             exists w',
               for_each l (fun failed => log E WARNING (py "  - " ++ failed))
                 w0 = (Ret tt, w')) as Hloop.
  { induction l as [|x l IH]; intros w0; simpl.
    - unfold_monad. eauto.
    - unfold log in *. unfold_monad. apply IH. }
  unfold log in Hloop. unfold_monad.
  destruct (Hloop (take 5 failed)
              (logger E WARNING
                 (py "Failed downloads: " ++ decimal (length failed)) w))
    as (w1 & ->).
  destruct (Nat.ltb 5 (length failed)); eauto.
Qed.

(** Once the playlist is extracted, only the creation of the playlist
    directory and the listing of the temporary directory can stop
    [process_playlist]: when the one call that creates the directory
    returns, the loop returns whatever the fetcher, the lookups, the tag
    library and the move do for any entry, and when the one call that lists
    the temporary directory then returns, [process_playlist] returns the
    playlist directory, even if no temporary file can be removed. *)
Theorem process_playlist_returns_directory playlist_url custom_name w
    info w1 w2 :
  let playlist_title :=
    clean_filename (default (py "Unknown Playlist") (info_title info)) in
  let videos := default [] (info_entries info) in
  let playlist_dir :=
    playlist_dir_of output_dir playlist_title custom_name in
  ydl_extract_info H playlist_url
    (logger E INFO (py "Extracting playlist info from: " ++ playlist_url) w)
  = (Ret info, w1) ->
  mkdir H playlist_dir
    (logger E INFO
       (py "Found playlist: " ++ playlist_title ++ py " with "
          ++ decimal (length videos) ++ py " videos") w1)
  = (Ret tt, w2) ->
  exists successful failed w3,
    process_playlist_loop (program_env E H) (temp_dir_of output_dir)
      playlist_dir videos
      (logger E INFO
         (py "Processing " ++ decimal (length videos) ++ py " videos into: "
            ++ path_str H playlist_dir) w2)
    = (Ret (successful, failed), w3)
    /\ forall temp_files w4,
         glob H (temp_dir_of output_dir) "*" w3 = (Ret temp_files, w4) ->
         exists w',
           process_playlist E H output_dir playlist_url custom_name w
           = (Ret playlist_dir, w').
Proof.
  intros playlist_title videos playlist_dir Hinfo Hmkdir.
  destruct (process_entries_tally (program_env E H) (temp_dir_of output_dir)
              playlist_dir (length videos) videos 1%nat 0%nat []
              (logger E INFO
                 (py "Processing " ++ decimal (length videos)
                    ++ py " videos into: " ++ path_str H playlist_dir) w2))
    as (s & f & w3 & Hloop & _).
  exists s, f, w3. split; [exact Hloop|].
  intros temp_files w4 Hglob.
  unfold process_playlist, extract_playlist_info, log.
  unfold_monad. rewrite Hinfo.
  fold playlist_title videos.
  change (path_div output_dir
            (if truthy custom_name then clean_filename custom_name
             else playlist_title))
    with playlist_dir.
  rewrite Hmkdir.
  unfold process_playlist_loop in Hloop |- *. rewrite Hloop, Hglob.
  destruct (cleanup_returns temp_files w4) as (w5 & Hclean).
  unfold_monad. rewrite Hclean.
  match goal with
  | |- context [report_failures E f ?w0] =>
      destruct (report_failures_returns f w0) as (w6 & Hreport)
  end.
  unfold log in Hreport. rewrite Hreport. eauto.
Qed.
End Program.

(** ** The further statements on sample runs *)

(** With a cover art server and a lyrics client at hand the tag writer
    attaches one picture and one lyrics frame after the five basic
    frames. *)
Lemma attachments_come_from_lookups_witness :
  exists pic lyr,
    [TIT2 (py "One More Time"); TPE1 (py "Daft Punk");
     TALB (py "Discovery"); TCON (py "Dance"); TDRC (py "2000");
     APIC (py "image/jpeg") 3 (py "Cover") [Byte.xff; Byte.xd8; Byte.xff];
     USLT (py "eng") (py "Lyrics") (py "One more time")]
    = basic_frames
        (tag_record Sample.song
           (Some (candidate_metadata (py "One More Time") (py "Daft Punk")
                    Sample.candidate)))
      ++ pic ++ lyr
    /\ (pic = []
        \/ exists f,
             pic = [f]
             /\ picture_of Scenario.studio
                  (tag_record Sample.song
                     (Some (candidate_metadata (py "One More Time")
                              (py "Daft Punk") Sample.candidate))) f)
    /\ (lyr = []
        \/ exists f,
             lyr = [f]
             /\ lyrics_of Scenario.studio
                  (tag_record Sample.song
                     (Some (candidate_metadata (py "One More Time")
                              (py "Daft Punk") Sample.candidate))) f).
Proof.
  apply (attachments_come_from_lookups Scenario.studio
           (path_join Sample.temp (py "x.mp3")) Sample.song
           (Some (candidate_metadata (py "One More Time") (py "Daft Punk")
                    Sample.candidate))
           [] _ [(INFO, py "Added metadata to: x.mp3")]).
  vm_compute. reflexivity.
Defined.

(** The one success of the run without network went through the fetch, the
    existence test, the lookup, the tag write and the move. *)
Lemma success_needs_fetch_and_move_witness :
  exists audio w1 w2 metadata w3 w4 w5,
    let parsed := extract_artist_title (reported_title 1 Sample.song) in
    let name := merge_name (fst parsed) (snd parsed) metadata in
    download_audio Sample.offline Sample.song Sample.temp
      (fetch_world Sample.offline 1 1 Sample.song [])
    = (Ret (Some audio), w1)
    /\ path_exists Sample.offline audio w1 = (Ret true, w2)
    /\ search_itunes_metadata Sample.offline (snd parsed) (fst parsed) w2
       = (Ret metadata, w3)
    /\ add_metadata_to_mp3 Sample.offline audio Sample.song metadata w3
       = (Ret tt, w4)
    /\ shutil_move Sample.offline audio
         (path_join Sample.out (final_name (fst name) (snd name))) w4
       = (Ret tt, w5).
Proof.
  eapply (success_needs_fetch_and_move Sample.offline Sample.temp Sample.out
            1 1 Sample.song 0 [] []).
  vm_compute. reflexivity.
Defined.

(** On a full disk the entry is fetched and tagged, the move raises, and
    the entry is a failure. *)
Lemma failed_move_is_a_failure_witness :
  fst (process_entry Scenario.full_disk Sample.temp Sample.out 1 1
         Sample.song (0%nat, []) [])
  = Ret (0%nat, [py "Daft Punk - One More Time (Official Video)"]).
Proof.
  erewrite (failed_move_is_a_failure Scenario.full_disk Sample.temp
              Sample.out 1 1 Sample.song 0 [] []);
    [reflexivity | vm_compute; reflexivity ..].
Defined.

(** When the fetcher delivers nothing, both available entries of a playlist
    of three fail, in their order. *)
Lemma nothing_fetched_nothing_counted_witness :
  exists w',
    process_playlist_loop Scenario.no_media Sample.temp Sample.out
      [Some Scenario.video; None; Some Scenario.untraceable] []
    = (Ret (0%nat,
            titles_from 1
              [Some Scenario.video; None; Some Scenario.untraceable]),
       w').
Proof.
  apply (nothing_fetched_nothing_counted Scenario.no_media Sample.temp
           Sample.out [Some Scenario.video; None; Some Scenario.untraceable]
           []).
  intros video w audio w'. discriminate.
Defined.

(** The entry with nothing but a title makes the fetcher raise. *)
Lemma fetcher_raises_only_without_url_witness :
  get_truthy Scenario.untraceable "webpage_url" = false
  /\ Scenario.untraceable !! "id" = None
  /\ unbound_local Scenario.host = unbound_local Scenario.host
  /\ ([] : Sample.world) = [].
Proof.
  apply (fetcher_raises_only_without_url Sample.offline Scenario.host
           Scenario.untraceable Sample.temp [] (unbound_local Scenario.host)
           []).
  vm_compute. reflexivity.
Defined.

(** The same entry in the loop: one failure, and the pass returns. *)
Lemma entry_without_url_is_failure_witness :
  fst (process_entry (program_env Sample.offline Scenario.host) Sample.temp
         Sample.out 3 3 Scenario.untraceable (1%nat, []) [])
  = Ret (1%nat, [py "Private video"]).
Proof.
  rewrite (entry_without_url_is_failure Sample.offline Scenario.host
             Sample.temp Sample.out 3 3 Scenario.untraceable 1 [] []);
    reflexivity.
Defined.

(** The file fetched for the entry with an [id] is the second of the two
    that the listing shows: the one whose stem holds the title. *)
Lemma fetched_file_was_listed_witness :
  exists w1 files w2,
    glob Scenario.host Sample.temp "*.mp3" w1 = (Ret files, w2)
    /\ In (path_join Sample.temp
             (py "Daft Punk - One More Time (Official Video).mp3")) files.
Proof.
  apply (fetched_file_was_listed Sample.offline Scenario.host Scenario.video
           Sample.temp [] _
           [(INFO, py "Downloading: Daft Punk - One More Time (Official Video)")]).
  vm_compute. reflexivity.
Defined.

(** A playlist that cannot be extracted: the error is raised again. *)
Lemma extraction_failure_is_raised_again_witness :
  fst (process_playlist Sample.offline Scenario.unreachable Scenario.root
         Scenario.url [] [])
  = Raise (mkExn OtherException (py "HTTP Error 404: Not Found")).
Proof.
  erewrite (extraction_failure_is_raised_again Sample.offline
              Scenario.unreachable Scenario.root Scenario.url [] []);
    [reflexivity | vm_compute; reflexivity].
Defined.

(** A playlist of three entries, of which one is unavailable and one
    cannot be fetched, on a host where no temporary file can be removed:
    the call returns the playlist directory. *)
Lemma process_playlist_returns_directory_witness :
  exists w',
    process_playlist Sample.offline Scenario.host Scenario.root Scenario.url
      [] []
    = (Ret [py "Downloaded_Playlists"; py "Mix Daft Punk"], w').
Proof.
  edestruct (process_playlist_returns_directory Sample.offline Scenario.host
               Scenario.root Scenario.url [] [])
    as (successful & failed & w3 & _ & Hreturns).
  - vm_compute. reflexivity.
  - vm_compute. reflexivity.
  - edestruct Hreturns as (w' & Hrun); [reflexivity|].
    exists w'. rewrite Hrun. vm_compute. reflexivity.
Defined.

(** ** Where the playlist goes *)

Lemma clean_filename_head filename :
  head (clean_filename filename) <> Some 0x2E.
Proof.
  rewrite clean_filename_direct. cbv zeta. intros Hhead.
  assert (head (strip_chars (py ".")
                  (strip (collapse_from false
                            (List.filter (fun c => negb (forbidden c))
                               filename))))
          = Some 0x2E) as Hdot.
  { destruct (Nat.ltb 200 _); [apply take_head in Hhead|]; exact Hhead. }
  apply strip_by_head in Hdot. discriminate Hdot.
Qed.

Section Directory.
Context {W : Type} (E : Env W) (H : Host W) (output_dir : path).

Lemma process_playlist_result playlist_url custom_name w p w' :
  process_playlist E H output_dir playlist_url custom_name w = (Ret p, w') ->
  exists playlist_title,
    p = playlist_dir_of output_dir (clean_filename playlist_title)
          custom_name.
Proof.
  unfold process_playlist, extract_playlist_info, playlist_dir_of, log.
  unfold_monad.
  destruct (ydl_extract_info H playlist_url _) as [[info | e] w1];
    [|discriminate].
  intros Hrun. exists (default (py "Unknown Playlist") (info_title info)).
  revert Hrun.
  match goal with
  | |- context [mkdir H ?d ?w0] =>
      destruct (mkdir H d w0) as [[[] | e] w2]; [|discriminate]
  end.
  match goal with
  | |- context [process_playlist_loop ?E' ?t ?d ?v ?w0] =>
      destruct (process_playlist_loop E' t d v w0) as [[[s f] | e] w3];
        [|discriminate]
  end.
  destruct (glob H _ "*" w3) as [[files | e] w4]; [|discriminate].
  destruct (for_each files _ w4) as [[[] | e] w5]; [|discriminate].
  match goal with
  | |- context [report_failures E f ?w0] =>
      destruct (report_failures E f w0) as [[[] | e] w6]; [|discriminate]
  end.
  intros [= <- _]. reflexivity.
Qed.

(** The directory that [process_playlist] returns never leaves the output
    directory: it is the output directory itself (when the chosen name
    sanitizes to nothing) or a direct child of it under a name that holds
    none of the forbidden characters, slash and backslash among them, does
    not begin with a dot and has at most 200 characters, whatever the
    playlist's title and the custom name are. *)
Theorem playlist_directory_stays_inside playlist_url custom_name w p w' :
  process_playlist E H output_dir playlist_url custom_name w = (Ret p, w') ->
  p = output_dir
  \/ exists name,
       p = path_join output_dir name
       /\ name <> []
       /\ (forall x, In x name -> forbidden x = false)
       /\ head name <> Some 0x2E
       /\ (length name <= 200)%nat.
Proof.
  intros Hrun. apply process_playlist_result in Hrun as (title & ->).
  unfold playlist_dir_of, path_div.
  set (name := if truthy custom_name then clean_filename custom_name
               else clean_filename title).
  assert ((forall x, In x name -> forbidden x = false)
          /\ head name <> Some 0x2E /\ (length name <= 200)%nat)
    as (Hchars & Hhead & Hlen).
  { subst name. destruct (truthy custom_name).
    - pose proof (clean_filename_chars custom_name) as Hc.
      rewrite forallb_forall in Hc.
      split; [|split].
      + intros x Hx. apply negb_true_iff. apply Hc. exact Hx.
      + apply clean_filename_head.
      + apply clean_filename_length.
    - pose proof (clean_filename_chars title) as Hc.
      rewrite forallb_forall in Hc.
      split; [|split].
      + intros x Hx. apply negb_true_iff. apply Hc. exact Hx.
      + apply clean_filename_head.
      + apply clean_filename_length. }
  destruct name as [|c rest]; [left; reflexivity|].
  right. exists (c :: rest). cbn [truthy].
  split; [reflexivity|]. split; [discriminate|]. auto.
Qed.
End Directory.

(** A custom name made to climb out of the output directory names a direct
    child of it. *)
Lemma playlist_directory_stays_inside_witness :
  [py "Downloaded_Playlists"; py "etc"] = Scenario.root
  \/ exists name,
       [py "Downloaded_Playlists"; py "etc"] = path_join Scenario.root name
       /\ name <> []
       /\ (forall x, In x name -> forbidden x = false)
       /\ head name <> Some 0x2E
       /\ (length name <= 200)%nat.
Proof.
  eapply (playlist_directory_stays_inside Sample.offline Scenario.host
            Scenario.root Scenario.url (py "../../etc") []).
  vm_compute. reflexivity.
Defined.

(** ** When the merged title is empty *)

Lemma cut_suffix_nil o c t :
  cut_suffix o c t = [] <-> t = [] \/ opens o c t = true.
Proof.
  destruct t as [|x t]; cbn [cut_suffix].
  - split; [auto|]. intros _. destruct (opens o c []); reflexivity.
  - destruct (opens o c (x :: t)).
    + split; auto.
    + split; [discriminate|]. intros [H | H]; discriminate H.
Qed.

Lemma at_eol_cases tail : Re.at_eol tail = true -> tail = [] \/ tail = [0x0A].
Proof.
  destruct tail as [|c [|d tail]]; simpl; auto; [|discriminate].
  intros Hc. apply N.eqb_eq in Hc. subst. auto.
Qed.

(** The right group of a match on a trimmed title ends with a character
    that is no white space, so trimming it leaves something. *)
Lemma right_group_not_blank raw group1 group2 :
  first_match (strip raw) = Some (group1, group2) -> strip group2 <> [].
Proof.
  intros Hm.
  apply first_match_split in Hm
    as (ws & x & ws' & tail & Hs & Hg1 & Hg2 & _ & _ & _ & Htail).
  pose proof (strip_by_is_edges_free is_space raw) as Hedges.
  fold (strip raw) in Hedges. rewrite Hs in Hedges.
  unfold edges_free in Hedges.
  destruct (head (group1 ++ ws ++ x :: ws' ++ group2 ++ tail)) as [a|]
    eqn:Hhead.
  2:{ destruct group1; [contradiction | discriminate Hhead]. }
  destruct (last group2) as [b|] eqn:Hlast.
  2:{ apply last_None in Hlast. contradiction. }
  assert (is_space b = false) as Hb.
  { apply at_eol_cases in Htail as [-> | ->].
    - rewrite app_nil_r in Hedges.
      change (ws ++ x :: ws' ++ group2) with (ws ++ (x :: ws') ++ group2)
        in Hedges.
      rewrite !last_app, Hlast in Hedges.
      apply andb_true_iff in Hedges as [_ Hedges].
      apply negb_true_iff in Hedges. exact Hedges.
    - change (ws ++ x :: ws' ++ group2 ++ [0x0A])
        with (ws ++ (x :: ws') ++ group2 ++ [0x0A]) in Hedges.
      rewrite !last_app in Hedges. simpl in Hedges.
      rewrite andb_false_r in Hedges. discriminate Hedges. }
  assert (In b group2) as Hin.
  { apply last_Some in Hlast as (l & ->). apply in_app_iff. right. left.
    reflexivity. }
  intros Hnil. apply (strip_by_keeps is_space) in Hin; [|exact Hb].
  unfold strip in Hnil. rewrite Hnil in Hin. destruct Hin.
Qed.

Lemma parsed_title_empty_iff raw :
  snd (extract_artist_title raw) = [] <-> parses_to_nothing raw.
Proof.
  rewrite extract_with_patterns. unfold parses_to_nothing.
  destruct (first_match (strip raw)) as [[group1 group2]|] eqn:Hm;
    [|reflexivity].
  apply right_group_not_blank in Hm.
  cbn [snd]. unfold Re.sub. rewrite !sub_suffix_pattern by reflexivity.
  rewrite <- !opens_shape by reflexivity.
  rewrite cut_suffix_nil, cut_suffix_nil.
  split.
  - intros [[H | H] | H]; [contradiction | auto | auto].
  - intros [H | H]; auto.
Qed.

(** C4, as the code has it. The merged title, for the tag writer and for
    the file name alike, is the title of the metadata record when a
    non-empty record carries one (an empty one included), and the parsed
    title otherwise; the parsed title is the trimmed raw title when no
    pattern matches, and nothing else falls back to the raw title.  So the
    merged title is empty exactly for the entries singled out by
    [title_is_lost]: the record carries an empty title, or it carries none
    and the raw title is blank or has a right group made of nothing but
    bracketed suffixes.  For every other entry it is not empty. *)
Theorem merged_title_empty_iff raw metadata :
  let parsed := extract_artist_title raw in
  let merged := merge_tags (fst parsed) (snd parsed) metadata in
  m_title merged = default (snd parsed) (resolved_title metadata)
  /\ snd (merge_name (fst parsed) (snd parsed) metadata) = m_title merged
  /\ (first_match (strip raw) = None -> snd parsed = strip raw)
  /\ (snd parsed = [] <-> parses_to_nothing raw)
  /\ (m_title merged = [] <-> title_is_lost raw metadata).
Proof.
  intros parsed merged.
  assert (m_title merged = default (snd parsed) (resolved_title metadata))
    as Htitle.
  { subst merged. unfold merge_tags, resolved_title, get_or.
    destruct metadata as [md|]; [|reflexivity].
    destruct (dict_truthy md); reflexivity. }
  split; [exact Htitle|]. split; [|split; [|split]].
  - subst merged. unfold merge_name, merge_tags.
    destruct metadata as [md|]; [|reflexivity].
    destruct (dict_truthy md); reflexivity.
  - intros Hnone. subst parsed. rewrite extract_with_patterns, Hnone.
    reflexivity.
  - apply parsed_title_empty_iff.
  - rewrite Htitle. unfold title_is_lost.
    destruct (resolved_title metadata) as [title|]; [reflexivity|].
    apply parsed_title_empty_iff.
Qed.

(** C4 on the specification's example: the merged title of
    [Daft Punk - One More Time (Official Video)] without metadata is
    [One More Time], and it is not empty because the entry is not among
    those that lose their title. *)
Lemma merged_title_empty_iff_witness :
  m_title (tag_record Sample.song None) = py "One More Time"
  /\ ~ title_is_lost (py "Daft Punk - One More Time (Official Video)") None
  /\ m_title (tag_record Sample.song None) <> [].
Proof.
  destruct (merged_title_empty_iff
              (py "Daft Punk - One More Time (Official Video)") None)
    as (_ & _ & _ & _ & Hiff).
  assert (~ title_is_lost (py "Daft Punk - One More Time (Official Video)")
            None) as Hkept.
  { unfold title_is_lost, resolved_title, parses_to_nothing.
    replace (first_match
               (strip (py "Daft Punk - One More Time (Official Video)")))
      with (Some (py "Daft Punk", py "One More Time (Official Video)"))
      by (vm_compute; reflexivity).
    rewrite <- !opens_shape by reflexivity.
    intros [H | H]; vm_compute in H; discriminate H. }
  split; [vm_compute; reflexivity|]. split; [exact Hkept|].
  intros Hempty. apply Hkept, Hiff.
  rewrite <- Hempty. vm_compute. reflexivity.
Defined.
